(** * live-player: the event list and the stream session controller

    A shallow embedding of the two React components of the repository,
    [EventList] (the periodic fetch of live events) and [StreamPlayer]
    (the connection life cycle of one HLS stream), and the properties of
    the specification that concern them.

    Conventions of the embedding.
    - A [useState] cell is a field of the component state; calling its
      setter replaces the field.  No handler of the components reads a
      cell it has written, so the state after a handler is the value of
      the last setter call for each cell.
    - A [useRef] cell is a field holding an optional object reference.
    - Objects that are shared and mutated (the video element, the Hls
      instances) live in a store, a list indexed by reference; a closure
      that captures an object captures its reference.
    - Closures passed as listeners are defunctionalised: one constructor
      per arrow function of the source, carrying the captured variables.
    - Every effectful call on an external object is appended to a call
      trace (newest first), so that "exactly one call" and "no call" can
      be stated.
    - A call on an external object that can throw has a [Completion]
      as its result; an exception ends the function that made the call,
      and what the function did before stays done. *)

From Stdlib Require Import QArith.
From stdpp Require Import base strings list pretty.

Set Default Proof Using "Type".

(** Sequencing of state transformers, read left to right like the
    statements of a function body. *)
Notation "s |> f" := (f s) (at level 45, left associativity, only parsing).

(** JavaScript truthiness of an optional string: [undefined] (here
    [None]) and the empty string are falsy. *)
Definition truthy (u : option string) : bool :=
  match u with
  | None => false
  | Some x => negb (String.eqb x "")
  end.

(** Truthiness of an optional object reference: [null] is falsy, an
    object is truthy. *)
Definition present {A} (o : option A) : bool :=
  match o with
  | None => false
  | Some _ => true
  end.

(** Assignment of a possibly undefined value to a DOM string property
    stringifies it. *)
Definition to_DOMString (u : option string) : string :=
  match u with
  | None => "undefined"
  | Some x => x
  end.

(* ================================================================== *)
(** ** EventList (EventList.jsx, [fetchEvents]) *)
(* ================================================================== *)

Module EventList.

(** A property of a parsed event that the component compares and
    prints.  The events of the response are stored as they come, so
    the property can be missing ([undefined]) or hold any JSON value: a
    number is given by its printing, which for the numbers of a JSON
    text decides [===]; an object or array by its identity and its
    printing. *)
Inductive Field :=
| Undefined
| Null
| Boolean (b : bool)
| Number (printed : string)
| Text (s : string)
| Object (ref : nat) (printed : string).

(** Strict equality [===] of two such values. *)
Definition Field_eqb (x y : Field) : bool :=
  match x, y with
  | Undefined, Undefined | Null, Null => true
  | Boolean a, Boolean b => Bool.eqb a b
  | Number a, Number b => String.eqb a b
  | Text a, Text b => String.eqb a b
  | Object r _, Object r' _ => Nat.eqb r r'
  | _, _ => false
  end.

(** The text a template literal prints for such a value. *)
Definition Field_to_string (x : Field) : string :=
  match x with
  | Undefined => "undefined"
  | Null => "null"
  | Boolean true => "true"
  | Boolean false => "false"
  | Number printed => printed
  | Text s => s
  | Object _ printed => printed
  end.

Record Event := {
  exchange : string;
  symbol : Field;
  year : nat;
  quarter : nat;
  companyName : string;
  eventDate : Field;
  streamingUrl : option string
}.

(** A thrown JavaScript error; the handler only reads [message]. *)
Record JsError := { message : string }.

(** The value [response.json()] resolves to, as far as [data.events]
    can tell: [null] (reading a property of it throws), or a value
    whose [events] property is either falsy/absent or an array. *)
Inductive Json :=
| JNull
| JValue (events : option (list Event)).

(** Outcome of [response.json()]. *)
Inductive Body :=
| SyntaxError (e : JsError)
| Parsed (data : Json).

(** Outcome of [fetch(API_URL)]: the promise rejects (network
    failure), or resolves to a response with [ok], [status] and a
    body. *)
Inductive Fetch :=
| Rejected (e : JsError)
| Response (ok : bool) (http_status : nat) (body : Body).

(** The three [useState] cells of the component. *)
Record State := {
  events : list Event;
  loading : bool;
  error : option string
}.

Definition initial : State :=
  {| events := []; loading := true; error := None |}.

Definition setEvents (x : list Event) (s : State) : State :=
  {| events := x; loading := loading s; error := error s |}.
Definition setLoading (x : bool) (s : State) : State :=
  {| events := events s; loading := x; error := error s |}.
Definition setError (x : option string) (s : State) : State :=
  {| events := events s; loading := loading s; error := x |}.

(** The message of the [TypeError] raised by [data.events] when [data]
    is [null]. *)
Definition null_property_message : string :=
  "Cannot read properties of null (reading 'events')".

(** The statements of the [try] block after [setLoading(true)] and
    [setError(null)]: either the list to hand to [setEvents], or the
    error that reaches [catch]. *)
Definition try_block (r : Fetch) : JsError + list Event :=
  match r with
  | Rejected e => inl e
  | Response false st _ =>
      inl {| message := "HTTP error! status: " +:+ pretty st |}
  | Response true _ (SyntaxError e) => inl e
  | Response true _ (Parsed JNull) =>
      inl {| message := null_property_message |}
  | Response true _ (Parsed (JValue (Some evs))) => inr evs
  | Response true _ (Parsed (JValue None)) => inr []
  end.

(** [fetchEvents], run to completion against the outcome [r] of the
    request. *)
Definition fetchEvents (r : Fetch) (s : State) : State :=
  let s := s |> setLoading true |> setError None in
  let s :=
    match try_block r with
    | inr evs => s |> setEvents evs
    | inl err => s |> setError (Some (message err))
    end in
  s |> setLoading false.

(** A fetch fails when control reaches the [catch] block. *)
Definition failed (r : Fetch) : bool :=
  match try_block r with
  | inl _ => true
  | inr _ => false
  end.

(** *** The fetches of one mounted list *)

(** [fetchEvents] is asynchronous and nothing keeps two fetches from
    overlapping: what one fetch does before its first [await], and what
    it does once the request is settled. *)
Definition fetch_start (s : State) : State :=
  s |> setLoading true |> setError None.

Definition fetch_finish (r : Fetch) (s : State) : State :=
  let s :=
    match try_block r with
    | inr evs => s |> setEvents evs
    | inl err => s |> setError (Some (message err))
    end in
  s |> setLoading false.

(** What happens to the list component, in order: a fetch starts, or a
    fetch that was started settles with an outcome. *)
Inductive Phase :=
| Start
| Settle (r : Fetch).

Definition run_phase (s : State) (p : Phase) : State :=
  match p with
  | Start => fetch_start s
  | Settle r => fetch_finish r s
  end.

Definition run_phases (ps : list Phase) (s : State) : State :=
  fold_left run_phase ps s.

(** The outcomes of a run, in the order in which they settled. *)
Definition settled (ps : list Phase) : list Fetch :=
  omap (λ p, match p with Start => None | Settle r => Some r end) ps.

(** The message of the last fetch of a run that failed. *)
Definition failure_message (r : Fetch) : option string :=
  match try_block r with
  | inl err => Some (message err)
  | inr _ => None
  end.
Definition last_failure (rs : list Fetch) : option string :=
  last (omap failure_message rs).

(** The list is fetched on mount, every 60 seconds by the timer, and by
    the Retry and Refresh buttons (lines 10-15, 71, 85).  A run of
    fetches, each completed before the next one starts; for fetches
    that overlap see [run_phases]. *)
Definition run_fetches (rs : list Fetch) (s : State) : State :=
  fold_left (λ acc r, fetchEvents r acc) rs s.

(** The list a fetch hands to [setEvents], if it gets there. *)
Definition response_events (r : Fetch) : option (list Event) :=
  match try_block r with
  | inr evs => Some evs
  | inl _ => None
  end.

(** The list of the last fetch of a run that did not fail. *)
Definition last_success (rs : list Fetch) : option (list Event) :=
  last (omap response_events rs).

(** *** What the component renders (lines 49-160) *)

(** [selectedEvent?.symbol] and [selectedEvent?.eventDate]: with no
    selection the optional chain gives [undefined]. *)
Definition selected_symbol (selectedEvent : option Event) : Field :=
  match selectedEvent with
  | None => Undefined
  | Some sel => symbol sel
  end.
Definition selected_eventDate (selectedEvent : option Event) : Field :=
  match selectedEvent with
  | None => Undefined
  | Some sel => eventDate sel
  end.

(** Lines 99-100: [selectedEvent?.symbol === event.symbol &&
    selectedEvent?.eventDate === event.eventDate]. *)
Definition isSelected (selectedEvent : option Event) (event : Event)
  : bool :=
  Field_eqb (selected_symbol selectedEvent) (symbol event)
  && Field_eqb (selected_eventDate selectedEvent) (eventDate event).

(** One card of the grid: its React key, the event its click hands to
    [onSelectEvent], whether it carries the PLAYING badge, and its
    texts.  The time line is left out: [formatDate] depends on the
    locale data of the browser. *)
Record Card := {
  key : string;
  card_event : Event;
  selected : bool;
  period : string;
  footer : string
}.

Definition card (selectedEvent : option Event) (index : nat)
    (event : Event) : Card :=
  {| key := Field_to_string (symbol event) +:+ "-"
            +:+ Field_to_string (eventDate event)
            +:+ "-" +:+ pretty index;
     card_event := event;
     selected := isSelected selectedEvent event;
     period := "Q" +:+ pretty (quarter event) +:+ " "
               +:+ pretty (year event);
     footer := if isSelected selectedEvent event
               then "Currently Streaming" else "Click to Stream" |}.

(** The three returns of the component: the spinner, the error page
    with its Retry button, and the list with its counter and Refresh
    button (no card: the "No live earnings events" text). *)
Inductive View :=
| Spinner
| ErrorPage (text : string)
| Listing (count : string) (refresh_disabled : bool)
    (refresh_label : string) (cards : list Card).

Definition render (selectedEvent : option Event) (s : State) : View :=
  if loading s && (length (events s) =? 0) then Spinner
  else if truthy (error s) && (length (events s) =? 0) then
    ErrorPage ("Failed to load events: " +:+ default "" (error s))
  else
    Listing
      (pretty (length (events s)) +:+ " event"
       +:+ (if negb (length (events s) =? 1) then "s" else ""))
      (loading s)
      (if loading s then "Refreshing..." else "Refresh")
      (imap (card selectedEvent) (events s)).

End EventList.

(* ================================================================== *)
(** ** The external collaborators of StreamPlayer *)
(* ================================================================== *)

(** Hls error payload, as read by the ERROR handler. *)
Record ErrorData := { fatal : bool; type : string; details : string }.

(** The arrow functions of [connectStream] that are registered as
    listeners, with the variables they capture. *)
Inductive Listener :=
| OnManifestParsed (video : nat)   (* hls.on(MANIFEST_PARSED, () => ...) *)
| OnHlsError (hls : nat)           (* hls.on(ERROR, (event, data) => ...) *)
| OnLoadedMetadata (video : nat)   (* addEventListener('loadedmetadata', ...) *)
| OnVideoError.                    (* addEventListener('error', ...) *)

(** The rendering surface: the [<video>] element, an external
    collaborator, reduced to the contract the specification gives for
    it (play, pause, a paused flag, a volume property, a src
    assignment) and the listeners the component adds.  The properties
    store what is assigned to them, except that the element refuses a
    volume outside [0, 1].  [play] clears the paused flag and [pause]
    sets it. *)
Module Video.
Record t := {
  paused : bool;
  src : string;
  volume : Q;
  listeners : list (string * Listener)
}.

(** A freshly rendered element. *)
Definition fresh : t :=
  {| paused := true; src := ""; volume := 1; listeners := [] |}.

Definition play (v : t) : t :=
  {| paused := false; src := src v; volume := volume v;
     listeners := listeners v |}.
Definition pause (v : t) : t :=
  {| paused := true; src := src v; volume := volume v;
     listeners := listeners v |}.
Definition set_src (x : string) (v : t) : t :=
  {| paused := paused v; src := x; volume := volume v;
     listeners := listeners v |}.
(** Assignment to [volume]: the element takes a value of [0, 1] and
    throws on any other, keeping the volume it has ([None]). *)
Definition volume_ok (x : Q) : bool := Qle_bool 0 x && Qle_bool x 1.
Definition set_volume (x : Q) (v : t) : option t :=
  if volume_ok x
  then Some {| paused := paused v; src := src v; volume := x;
               listeners := listeners v |}
  else None.
Definition addEventListener (ev : string) (l : Listener) (v : t) : t :=
  {| paused := paused v; src := src v; volume := volume v;
     listeners := listeners v ++ [(ev, l)] |}.
End Video.

(** The streaming engine: one hls.js instance, an external
    collaborator, reduced to the contract the specification gives for
    it (load, attach, the manifest-parsed and error events, the two
    recovery operations, destroy).  An instance is live from [new Hls]
    until [destroy]; [destroy] detaches the media and removes every
    listener, so a destroyed instance emits nothing, and neither does
    an instance that was never given a source.  [loadSource] needs a
    URL: called with [undefined] it throws. *)
Module Hls.
Record t := {
  destroyed : bool;
  source : option string;   (* the URL [loadSource] was given, if any *)
  media : option nat;
  listeners : list (string * Listener)
}.

(** Constants of hls.js. *)
Definition MANIFEST_PARSED : string := "hlsManifestParsed".
Definition ERROR : string := "hlsError".
Definition NETWORK_ERROR : string := "networkError".
Definition MEDIA_ERROR : string := "mediaError".

Definition fresh : t :=
  {| destroyed := false; source := None; media := None; listeners := [] |}.

Definition loadSource (url : string) (h : t) : t :=
  {| destroyed := destroyed h; source := Some url; media := media h;
     listeners := listeners h |}.
Definition attachMedia (v : nat) (h : t) : t :=
  {| destroyed := destroyed h; source := source h; media := Some v;
     listeners := listeners h |}.
Definition on (ev : string) (l : Listener) (h : t) : t :=
  {| destroyed := destroyed h; source := source h; media := media h;
     listeners := listeners h ++ [(ev, l)] |}.
Definition destroy (h : t) : t :=
  {| destroyed := true; source := source h; media := None;
     listeners := [] |}.
End Hls.

(** What the browser decides: [Hls.isSupported()] and
    [video.canPlayType(mime)]. *)
Record Browser := {
  isSupported : bool;
  canPlayType : string → string
}.

(** The effectful calls the component issues on its collaborators. *)
Inductive Call :=
| HlsNew (h : nat)
| HlsLoadSource (h : nat) (url : option string)
| HlsAttachMedia (h : nat) (video : nat)
| HlsOn (h : nat) (ev : string)
| HlsStartLoad (h : nat)
| HlsRecoverMediaError (h : nat)
| HlsDestroy (h : nat)
| VideoPlay (video : nat)
| VideoPause (video : nat)
| VideoSetSrc (video : nat) (x : string)
| VideoSetVolume (video : nat) (x : Q)
| VideoAddEventListener (video : nat) (ev : string)
| ConsoleError (msg : string)
| ConsoleLog (msg : string).

(** Calls on the streaming engine. *)
Definition is_engine_call (c : Call) : bool :=
  match c with
  | HlsNew _ | HlsLoadSource _ _ | HlsAttachMedia _ _ | HlsOn _ _
  | HlsStartLoad _ | HlsRecoverMediaError _ | HlsDestroy _ => true
  | _ => false
  end.

Definition engine_calls (cs : list Call) : list Call :=
  List.filter is_engine_call cs.

Definition is_play (c : Call) : bool :=
  match c with VideoPlay _ => true | _ => false end.

Definition play_calls (cs : list Call) : list Call :=
  List.filter is_play cs.

Definition is_HlsNew (c : Call) : bool :=
  match c with HlsNew _ => true | _ => false end.

(** The range of the volume slider and of a media element's volume. *)
Definition in_unit_interval (x : Q) : Prop := (0 <= x)%Q ∧ (x <= 1)%Q.

(** The engine instances that are live after a history of calls (newest
    first): created and not destroyed since. *)
Fixpoint live_after (cs : list Call) : list nat :=
  match cs with
  | [] => []
  | HlsNew h :: old => h :: live_after old
  | HlsDestroy h :: old => filter (λ k, k ≠ h) (live_after old)
  | _ :: old => live_after old
  end.

(* ================================================================== *)
(** ** StreamPlayer (StreamPlayer.jsx) *)
(* ================================================================== *)

Module StreamPlayer.

Inductive Status := Disconnected | Connecting | Connected | Error.

Definition Status_eqb (a b : Status) : bool :=
  match a, b with
  | Disconnected, Disconnected | Connecting, Connecting
  | Connected, Connected | Error, Error => true
  | _, _ => false
  end.

(** Props, refs and state cells of the component, the store of the
    objects it references, and the trace of its calls. *)
Record State := {
  event : option nat;          (* prop: the selected event object *)
  streamUrl : option string;   (* prop: selectedEvent?.streamingUrl *)
  videoRef : option nat;       (* useRef(null), set by <video ref=...> *)
  hlsRef : option nat;         (* useRef(null) *)
  isPlaying : bool;            (* useState(false) *)
  status : Status;             (* useState('disconnected') *)
  error : option string;       (* useState(null) *)
  volume : Q;                  (* useState(1) *)
  videos : list Video.t;
  engines : list Hls.t;
  calls : list Call
}.

Definition initial : State :=
  {| event := None; streamUrl := None; videoRef := None; hlsRef := None;
     isPlaying := false; status := Disconnected; error := None;
     volume := 1; videos := []; engines := []; calls := [] |}.

(** *** Field updates *)

Definition set_props (e' : option nat) (u' : option string) (s : State)
  : State :=
  let 'Build_State e u v h p st er vol vs es cs := s in
  {| event := e'; streamUrl := u'; videoRef := v; hlsRef := h;
     isPlaying := p; status := st; error := er; volume := vol;
     videos := vs; engines := es; calls := cs |}.
Definition set_videoRef (x : option nat) (s : State)
  : State :=
  let 'Build_State e u v h p st er vol vs es cs := s in
  {| event := e; streamUrl := u; videoRef := x; hlsRef := h;
     isPlaying := p; status := st; error := er; volume := vol;
     videos := vs; engines := es; calls := cs |}.
Definition set_hlsRef (x : option nat) (s : State)
  : State :=
  let 'Build_State e u v h p st er vol vs es cs := s in
  {| event := e; streamUrl := u; videoRef := v; hlsRef := x;
     isPlaying := p; status := st; error := er; volume := vol;
     videos := vs; engines := es; calls := cs |}.
Definition setIsPlaying (x : bool) (s : State)
  : State :=
  let 'Build_State e u v h p st er vol vs es cs := s in
  {| event := e; streamUrl := u; videoRef := v; hlsRef := h;
     isPlaying := x; status := st; error := er; volume := vol;
     videos := vs; engines := es; calls := cs |}.
Definition setStatus (x : Status) (s : State)
  : State :=
  let 'Build_State e u v h p st er vol vs es cs := s in
  {| event := e; streamUrl := u; videoRef := v; hlsRef := h;
     isPlaying := p; status := x; error := er; volume := vol;
     videos := vs; engines := es; calls := cs |}.
Definition setError (x : option string) (s : State)
  : State :=
  let 'Build_State e u v h p st er vol vs es cs := s in
  {| event := e; streamUrl := u; videoRef := v; hlsRef := h;
     isPlaying := p; status := st; error := x; volume := vol;
     videos := vs; engines := es; calls := cs |}.
Definition setVolume (x : Q) (s : State)
  : State :=
  let 'Build_State e u v h p st er vol vs es cs := s in
  {| event := e; streamUrl := u; videoRef := v; hlsRef := h;
     isPlaying := p; status := st; error := er; volume := x;
     videos := vs; engines := es; calls := cs |}.
Definition set_videos (x : list Video.t) (s : State)
  : State :=
  let 'Build_State e u v h p st er vol vs es cs := s in
  {| event := e; streamUrl := u; videoRef := v; hlsRef := h;
     isPlaying := p; status := st; error := er; volume := vol;
     videos := x; engines := es; calls := cs |}.
Definition set_engines (x : list Hls.t) (s : State)
  : State :=
  let 'Build_State e u v h p st er vol vs es cs := s in
  {| event := e; streamUrl := u; videoRef := v; hlsRef := h;
     isPlaying := p; status := st; error := er; volume := vol;
     videos := vs; engines := x; calls := cs |}.
Definition call (c : Call) (s : State)
  : State :=
  let 'Build_State e u v h p st er vol vs es cs := s in
  {| event := e; streamUrl := u; videoRef := v; hlsRef := h;
     isPlaying := p; status := st; error := er; volume := vol;
     videos := vs; engines := es; calls := c :: cs |}.

(** *** Calls on the collaborators: the trace entry and the effect on
    the object in the store *)

(** How a call that can throw ends, with the state it has reached. *)
Inductive Completion :=
| Returns (s : State)
| Throws (s : State).

(** The state the component is left in: an exception that leaves a
    handler undoes nothing of what the handler did before. *)
Definition state_of (c : Completion) : State :=
  match c with
  | Returns s | Throws s => s
  end.

Definition on_video (v : nat) (f : Video.t → Video.t) (s : State) :=
  s |> set_videos (alter f v (videos s)).
Definition on_engine (h : nat) (f : Hls.t → Hls.t) (s : State) :=
  s |> set_engines (alter f h (engines s)).

Definition video_play (v : nat) (s : State) :=
  s |> call (VideoPlay v) |> on_video v Video.play.
Definition video_pause (v : nat) (s : State) :=
  s |> call (VideoPause v) |> on_video v Video.pause.
Definition video_set_src (v : nat) (x : string) (s : State) :=
  s |> call (VideoSetSrc v x) |> on_video v (Video.set_src x).
(** [video.volume = x]; the element may refuse the value. *)
Definition video_set_volume (v : nat) (x : Q) (s : State) : Completion :=
  let s := s |> call (VideoSetVolume v x) in
  match videos s !! v with
  | None => Returns s
  | Some el =>
      match Video.set_volume x el with
      | Some el' => Returns (s |> set_videos (<[v:=el']> (videos s)))
      | None => Throws s
      end
  end.
Definition video_addEventListener
    (v : nat) (ev : string) (l : Listener) (s : State) :=
  s |> call (VideoAddEventListener v ev)
    |> on_video v (Video.addEventListener ev l).

(** [video.paused]; a reference held by the component always points
    into the store, the default is never read. *)
Definition video_paused (v : nat) (s : State) : bool :=
  match videos s !! v with
  | Some x => Video.paused x
  | None => true
  end.

(** [new Hls(config)]: the new instance takes the next reference. *)
Definition hls_new (s : State) : nat * State :=
  let h := length (engines s) in
  (h, s |> call (HlsNew h) |> set_engines (engines s ++ [Hls.fresh])).
(** [hls.loadSource(streamUrl)]: hls.js resolves the URL first, which
    throws a TypeError when it is [undefined]. *)
Definition hls_loadSource (h : nat) (u : option string) (s : State)
  : Completion :=
  let s := s |> call (HlsLoadSource h u) in
  match u with
  | Some url => Returns (s |> on_engine h (Hls.loadSource url))
  | None => Throws s
  end.
Definition hls_attachMedia (h v : nat) (s : State) :=
  s |> call (HlsAttachMedia h v) |> on_engine h (Hls.attachMedia v).
Definition hls_on (h : nat) (ev : string) (l : Listener) (s : State) :=
  s |> call (HlsOn h ev) |> on_engine h (Hls.on ev l).
Definition hls_startLoad (h : nat) (s : State) :=
  s |> call (HlsStartLoad h).
Definition hls_recoverMediaError (h : nat) (s : State) :=
  s |> call (HlsRecoverMediaError h).
Definition hls_destroy (h : nat) (s : State) :=
  s |> call (HlsDestroy h) |> on_engine h Hls.destroy.

(** *** The bodies of the listeners *)

(** Lines 44-48: [() => { setStatus('connected'); video.play();
    setIsPlaying(true) }]. *)
Definition manifest_parsed_handler (video : nat) (s : State) : State :=
  s |> setStatus Connected |> video_play video |> setIsPlaying true.

(** Lines 50-71: the ERROR handler, with [hls] captured. *)
Definition hls_error_handler (hls : nat) (data : ErrorData) (s : State)
  : State :=
  let s := s |> call (ConsoleError "HLS error:") in
  if fatal data then
    let s := s |> setStatus Error
               |> setError (Some (type data +:+ ": " +:+ details data)) in
    if String.eqb (type data) Hls.NETWORK_ERROR then
      s |> call (ConsoleLog "Network error, attempting to recover...")
        |> hls_startLoad hls
    else if String.eqb (type data) Hls.MEDIA_ERROR then
      s |> call (ConsoleLog "Media error, attempting to recover...")
        |> hls_recoverMediaError hls
    else
      s |> hls_destroy hls |> setIsPlaying false
  else s.

(** Lines 76-80. *)
Definition loadedmetadata_handler (video : nat) (s : State) : State :=
  s |> setStatus Connected |> video_play video |> setIsPlaying true.

(** Lines 81-84. *)
Definition video_error_handler (s : State) : State :=
  s |> setStatus Error |> setError (Some "Failed to load stream").

(** Running one registered listener.  [data] is the payload of an
    engine ERROR event; the ERROR handler is only ever registered for
    that event. *)
Definition run_listener (data : option ErrorData) (l : Listener)
    (s : State) : State :=
  match l with
  | OnManifestParsed video => manifest_parsed_handler video s
  | OnHlsError hls =>
      match data with
      | Some d => hls_error_handler hls d s
      | None => s
      end
  | OnLoadedMetadata video => loadedmetadata_handler video s
  | OnVideoError => video_error_handler s
  end.

(** The listeners registered for [ev], in registration order. *)
Definition listeners_for (ev : string) (ls : list (string * Listener))
  : list Listener :=
  map snd (List.filter (λ p, String.eqb (fst p) ev) ls).

(** Emission runs the listeners that were registered when it started. *)
Definition run_listeners (data : option ErrorData) (ls : list Listener)
    (s : State) : State :=
  fold_left (λ acc l, run_listener data l acc) ls s.

(** *** The functions of the component *)

Definition HLS_MIME : string := "application/vnd.apple.mpegurl".

(** Lines 26-89.  When [hls.loadSource] throws, the exception leaves
    the function: the lines after it are not run, so the new instance
    is neither attached, nor given listeners, nor stored in [hlsRef]. *)
Definition connectStream (b : Browser) (s : State) : State :=
  match videoRef s with
  | None => s
  | Some video =>
      let s := s |> setStatus Connecting |> setError None in
      if isSupported b then
        let '(hls, s) := hls_new s in
        match hls_loadSource hls (streamUrl s) s with
        | Throws s => s
        | Returns s =>
            s |> hls_attachMedia hls video
              |> hls_on hls Hls.MANIFEST_PARSED (OnManifestParsed video)
              |> hls_on hls Hls.ERROR (OnHlsError hls)
              |> set_hlsRef (Some hls)
        end
      else if truthy (Some (canPlayType b HLS_MIME)) then
        s |> video_set_src video (to_DOMString (streamUrl s))
          |> video_addEventListener video "loadedmetadata"
               (OnLoadedMetadata video)
          |> video_addEventListener video "error" OnVideoError
      else
        s |> setStatus Error
          |> setError (Some "HLS is not supported in this browser")
  end.

(** Lines 91-107. *)
Definition disconnectStream (s : State) : State :=
  let s :=
    match videoRef s with
    | Some video => s |> video_pause video |> video_set_src video ""
    | None => s
    end in
  let s :=
    match hlsRef s with
    | Some hls => s |> hls_destroy hls |> set_hlsRef None
    | None => s
    end in
  s |> setStatus Disconnected |> setIsPlaying false |> setError None.

(** Lines 109-120. *)
Definition togglePlayPause (s : State) : State :=
  match videoRef s with
  | None => s
  | Some video =>
      if video_paused video s
      then s |> video_play video |> setIsPlaying true
      else s |> video_pause video |> setIsPlaying false
  end.

(** Lines 122-128; [newVolume] is [parseFloat(e.target.value)].  The
    assignment is the last statement: if the element refuses the value
    the handler ends there. *)
Definition handleVolumeChange (newVolume : Q) (s : State) : State :=
  let s := s |> setVolume newVolume in
  match videoRef s with
  | Some video => state_of (video_set_volume video newVolume s)
  | None => s
  end.

(** Lines 14-16: the body of the effect. *)
Definition effect (b : Browser) (s : State) : State :=
  if present (event s) && truthy (streamUrl s)
  then connectStream b s
  else s.

(** Lines 18-23: the cleanup returned by the effect. *)
Definition cleanup (s : State) : State :=
  match hlsRef s with
  | Some hls => s |> hls_destroy hls |> set_hlsRef None
  | None => s
  end.

(** *** The component as a transition system

    What React does with the component: rendering binds [videoRef]
    (the [<video>] element exists exactly while an event is selected),
    and when a dependency of the effect changed, the previous cleanup
    runs, then the effect. *)

Definition render (e : option nat) (u : option string) (s : State)
  : State :=
  let s := s |> set_props e u in
  match e, videoRef s with
  | None, _ => s |> set_videoRef None
  | Some _, None =>
      s |> set_videos (videos s ++ [Video.fresh])
        |> set_videoRef (Some (length (videos s)))
  | Some _, Some _ => s
  end.

(** The dependency array [[event, streamUrl]] differs from the one of
    the previous render. *)
Definition deps_changed (e : option nat) (u : option string) (s : State)
  : bool :=
  negb (bool_decide (event s = e ∧ streamUrl s = u)).

Definition update (b : Browser) (e : option nat) (u : option string)
    (s : State) : State :=
  let changed := deps_changed e u s in
  let s := s |> render e u in
  if changed then s |> cleanup |> effect b else s.

Definition mount (b : Browser) (e : option nat) (u : option string)
  : State :=
  initial |> render e u |> effect b.

Definition unmount (s : State) : State := cleanup s.

Inductive EngineEvent :=
| ManifestParsed
| EngineError (data : ErrorData).

Definition hls_emit (h : nat) (ev : EngineEvent) (s : State) : State :=
  match engines s !! h with
  | None => s
  | Some inst =>
      match ev with
      | ManifestParsed =>
          run_listeners None
            (listeners_for Hls.MANIFEST_PARSED (Hls.listeners inst)) s
      | EngineError data =>
          run_listeners (Some data)
            (listeners_for Hls.ERROR (Hls.listeners inst)) s
      end
  end.

Definition video_emit (v : nat) (ev : string) (s : State) : State :=
  match videos s !! v with
  | None => s
  | Some x => run_listeners None (listeners_for ev (Video.listeners x)) s
  end.

Inductive Action :=
| SetProps (e : option nat) (u : option string)
| ClickConnect
| ClickDisconnect
| ClickPlayPause
| ChangeVolume (v : Q)
| HlsEmit (h : nat) (ev : EngineEvent)
| VideoEmit (v : nat) (ev : string).

(** When an action can happen: the buttons and the slider exist as the
    JSX renders them (lines 199-230; the slider has [min=0], [max=1]),
    and only a live engine instance that was given a source emits. *)
Definition enabled (a : Action) (s : State) : bool :=
  match a with
  | SetProps _ _ => true
  | ClickConnect =>
      present (event s) && Status_eqb (status s) Disconnected
  | ClickDisconnect =>
      present (event s) && negb (Status_eqb (status s) Disconnected)
  | ClickPlayPause =>
      present (event s) && Status_eqb (status s) Connected
  | ChangeVolume v =>
      present (event s) && Status_eqb (status s) Connected
      && Qle_bool 0 v && Qle_bool v 1
  | HlsEmit h _ =>
      match engines s !! h with
      | Some inst => negb (Hls.destroyed inst) && present (Hls.source inst)
      | None => false
      end
  | VideoEmit v _ => present (videos s !! v)
  end.

Definition step (b : Browser) (a : Action) (s : State) : State :=
  match a with
  | SetProps e u => update b e u s
  | ClickConnect => connectStream b s
  | ClickDisconnect => disconnectStream s
  | ClickPlayPause => togglePlayPause s
  | ChangeVolume v => handleVolumeChange v s
  | HlsEmit h ev => hls_emit h ev s
  | VideoEmit v ev => video_emit v ev s
  end.

(** The states the mounted component can be in. *)
Inductive reachable (b : Browser) : State → Prop :=
| reachable_mount e u : reachable b (mount b e u)
| reachable_step a s :
    reachable b s → enabled a s = true → reachable b (step b a s).

(** Whether an action runs [connectStream]. *)
Definition connects (a : Action) (s : State) : bool :=
  match a with
  | SetProps e u => deps_changed e u s && present e && truthy u
  | ClickConnect => true
  | _ => false
  end.

(** A run of actions, none of which runs [connectStream]. *)
Inductive run_without_connect (b : Browser) : State → State → Prop :=
| rwc_refl s : run_without_connect b s s
| rwc_step a s s' :
    enabled a s = true → connects a s = false →
    run_without_connect b (step b a s) s' →
    run_without_connect b s s'.

(** A run of actions of the mounted component. *)
Inductive run (b : Browser) : State → State → Prop :=
| run_refl s : run b s s
| run_step a s s' :
    enabled a s = true → run b (step b a s) s' → run b s s'.

(** The instance [h] is released. *)
Definition released (h : nat) (s : State) : Prop :=
  ∃ inst, engines s !! h = Some inst ∧ Hls.destroyed inst = true.

(** No instance that was given a source is live. *)
Definition no_stream_live (s : State) : Prop :=
  ∀ h inst, engines s !! h = Some inst → Hls.destroyed inst = false →
    Hls.source inst = None.

(** The instances of the store that are live. *)
Definition live_engines (s : State) : list nat :=
  (λ p, fst p)
    <$> filter (λ p, Hls.destroyed (snd p) = false) (imap pair (engines s)).

(** The actions that can move the session out of its state: a connect,
    a disconnect, and the signals that a stream is ready or failed to
    load natively. *)
Definition leaves_state (a : Action) (s : State) : bool :=
  match a with
  | ClickDisconnect => true
  | HlsEmit _ ManifestParsed => true
  | VideoEmit _ _ => true
  | _ => connects a s
  end.

(** The session part of the state: everything but the call trace. *)
Definition same_session (s t : State) : Prop :=
  event s = event t ∧ streamUrl s = streamUrl t ∧
  videoRef s = videoRef t ∧ hlsRef s = hlsRef t ∧
  isPlaying s = isPlaying t ∧ status s = status t ∧
  error s = error t ∧ volume s = volume t ∧
  videos s = videos t ∧ engines s = engines t.

(** hls.js is supported, or the surface plays HLS natively. *)
Definition can_stream (b : Browser) : Prop :=
  isSupported b = true ∨ truthy (Some (canPlayType b HLS_MIME)) = true.

(** The volume of the bound rendering surface. *)
Definition surface_volume (s : State) : option Q :=
  match videoRef s with
  | Some v => Video.volume <$> videos s !! v
  | None => None
  end.

(** *** Properties of traces and states *)

(** At every point of a history of calls at most one engine instance
    is live, and whenever an instance is created every instance
    created before it has been destroyed. *)
Fixpoint single_engine (cs : list Call) : Prop :=
  match cs with
  | [] => True
  | c :: old =>
      single_engine old ∧
      length (live_after (c :: old)) ≤ 1 ∧
      (is_HlsNew c = true → live_after old = [])
  end.

(** The listeners [connectStream] registers on the instance [h] it
    creates for the video element [v]. *)
Definition wiring (h v : nat) : list (string * Listener) :=
  [(Hls.MANIFEST_PARSED, OnManifestParsed v); (Hls.ERROR, OnHlsError h)].

Record Inv (s : State) : Prop := {
  (* the <video> element exists exactly while an event is selected *)
  inv_surface : present (videoRef s) = present (event s);
  inv_surface_valid :
    ∀ v, videoRef s = Some v → is_Some (videos s !! v);
  inv_volume :
    Forall (λ x, in_unit_interval (Video.volume x)) (videos s);
  inv_disconnected : status s = Disconnected → hlsRef s = None;
  (* the instance in hlsRef was given a source *)
  inv_ref_loaded :
    ∀ h, hlsRef s = Some h →
      ∃ inst, engines s !! h = Some inst ∧
              present (Hls.source inst) = true;
  (* a live instance that was given a source is the one in hlsRef,
     wired to the bound surface *)
  inv_live :
    ∀ h inst, engines s !! h = Some inst → Hls.destroyed inst = false →
      present (Hls.source inst) = true →
      hlsRef s = Some h ∧
      ∃ v, videoRef s = Some v ∧ Hls.listeners inst = wiring h v
}.

(** *** More of the component *)

(** Lines 130-141. *)
Definition getStatusColor (st : Status) : string :=
  match st with
  | Connected => "#10b981"
  | Connecting => "#f59e0b"
  | Error => "#ef4444"
  | Disconnected => "#6b7280"
  end.

(** Calls on the rendering surface. *)
Definition is_video_call (c : Call) : bool :=
  match c with
  | VideoPlay _ | VideoPause _ | VideoSetSrc _ _ | VideoSetVolume _ _
  | VideoAddEventListener _ _ => true
  | _ => false
  end.

Definition video_calls (cs : list Call) : list Call :=
  List.filter is_video_call cs.

(** How the state cells go together in every state of the component. *)
Record Coherent (s : State) : Prop := {
  coh_disconnected :
    status s = Disconnected → isPlaying s = false ∧ error s = None;
  coh_connecting : status s = Connecting → error s = None;
  coh_error : status s = Error → is_Some (error s)
}.

(** The listeners [k] native connects leave on the video element [v]. *)
Definition native_listeners (v k : nat) : list (string * Listener) :=
  concat (replicate k [("loadedmetadata", OnLoadedMetadata v);
                       ("error", OnVideoError)]).

(** The number of native connects made on the video element [v] in a
    history of calls: each one adds a loadedmetadata listener. *)
Definition adds_loadedmetadata (v : nat) (c : Call) : bool :=
  match c with
  | VideoAddEventListener v' ev =>
      Nat.eqb v' v && String.eqb ev "loadedmetadata"
  | _ => false
  end.

Definition native_connects (v : nat) (cs : list Call) : nat :=
  length (List.filter (adds_loadedmetadata v) cs).

(** Every video element carries the listeners of the native connects
    made on it, all of them, and no other. *)
Definition native_only (s : State) : Prop :=
  ∀ v x, videos s !! v = Some x →
    Video.listeners x = native_listeners v (native_connects v (calls s)).

(** No call has been made on a video element that does not exist yet. *)
Definition native_fresh (s : State) : Prop :=
  ∀ v, length (videos s) ≤ v → native_connects v (calls s) = 0.

End StreamPlayer.

(* ================================================================== *)
(** ** Concrete browsers, events and runs *)
(* ================================================================== *)

Module Examples.
Import StreamPlayer.

(** A browser with Media Source Extensions: hls.js is supported. *)
Definition chrome : Browser :=
  {| isSupported := true; canPlayType := λ _, "" |}.
(** A browser that plays HLS natively and does not support hls.js. *)
Definition safari : Browser :=
  {| isSupported := false; canPlayType := λ _, "maybe" |}.
(** A browser with neither. *)
Definition legacy : Browser :=
  {| isSupported := false; canPlayType := λ _, "" |}.

Definition url : option string := Some "https://x/playlist.m3u8".

(** The application mounts the player with no event selected. *)
Definition idle (b : Browser) : State := mount b None None.

(** Selecting an event that has a streaming URL. *)
Definition selected (b : Browser) : State :=
  idle b |> step b (SetProps (Some 0) url).

(** Selecting an event that has no streaming URL. *)
Definition selected_no_url (b : Browser) : State :=
  idle b |> step b (SetProps (Some 0) None).

(** The stream is playing. *)
Definition playing : State :=
  selected chrome |> step chrome (HlsEmit 0 ManifestParsed).

Definition network_error : ErrorData :=
  {| fatal := true; type := "networkError";
     details := "manifestLoadError" |}.
Definition media_error : ErrorData :=
  {| fatal := true; type := "mediaError";
     details := "bufferStalledError" |}.
Definition other_error : ErrorData :=
  {| fatal := true; type := "otherError";
     details := "internalException" |}.

(** Disconnecting and connecting again by the buttons. *)
Definition reconnected : State :=
  selected chrome |> step chrome ClickDisconnect
                  |> step chrome ClickConnect.

(** A fatal error of another category while connecting. *)
Definition crashed : State :=
  selected chrome |> step chrome (HlsEmit 0 (EngineError other_error)).

(** The Connect button pressed for an event that has no streaming URL. *)
Definition stuck : State :=
  selected_no_url chrome |> step chrome ClickConnect.

(** The same, followed by Disconnect and Connect again. *)
Definition leaked : State :=
  stuck |> step chrome ClickDisconnect |> step chrome ClickConnect.

Definition aapl : EventList.Event :=
  {| EventList.exchange := "NASDAQ";
     EventList.symbol := EventList.Text "AAPL";
     EventList.year := 2024; EventList.quarter := 4;
     EventList.companyName := "Apple Inc.";
     EventList.eventDate := EventList.Text "2024-11-01T17:00:00Z";
     EventList.streamingUrl := url |}.

(** An event list holding one event, with no fetch in flight. *)
Definition one_event : EventList.State :=
  {| EventList.events := [aapl]; EventList.loading := false;
     EventList.error := None |}.

(** A failed request, as the browser reports it. *)
Definition offline : EventList.Fetch :=
  EventList.Rejected {| EventList.message := "Failed to fetch" |}.

(** A response that carries the one event. *)
Definition one_event_response : EventList.Fetch :=
  EventList.Response true 200
    (EventList.Parsed (EventList.JValue (Some [aapl]))).

(** A second event of the same company. *)
Definition aapl_q1 : EventList.Event :=
  {| EventList.exchange := "NASDAQ";
     EventList.symbol := EventList.Text "AAPL";
     EventList.year := 2025; EventList.quarter := 1;
     EventList.companyName := "Apple Inc.";
     EventList.eventDate := EventList.Text "2025-01-30T22:00:00Z";
     EventList.streamingUrl := Some "https://x/q1.m3u8" |}.

(** An event that came without a symbol and without a date. *)
Definition unnamed : EventList.Event :=
  {| EventList.exchange := "NYSE";
     EventList.symbol := EventList.Undefined;
     EventList.year := 2025; EventList.quarter := 1;
     EventList.companyName := "";
     EventList.eventDate := EventList.Undefined;
     EventList.streamingUrl := None |}.

(** A fatal network error while playing. *)
Definition stalled : State :=
  playing |> step chrome (HlsEmit 0 (EngineError network_error)).

(** An error the engine does not mark fatal. *)
Definition hiccup : ErrorData :=
  {| fatal := false; type := "networkError";
     details := "fragLoadTimeOut" |}.

(** Native playback: connected, disconnected, connected again. *)
Definition native_again : State :=
  selected safari |> step safari ClickDisconnect
                  |> step safari ClickConnect.

End Examples.

(* ================================================================== *)
(** ** The event list *)
(* ================================================================== *)

Section EventListFacts.
Import EventList.

(** The three ways a fetch fails that the specification names: the
    request is rejected, the response is not 2xx, the body is not
    JSON. *)
Lemma failure_causes :
  (∀ e, failed (Rejected e) = true) ∧
  (∀ st body, failed (Response false st body) = true) ∧
  (∀ st e, failed (Response true st (SyntaxError e)) = true).
Proof. repeat split. Qed.

Lemma http_error_message st body s :
  error (fetchEvents (Response false st body) s)
  = Some ("HTTP error! status: " +:+ pretty st).
Proof. reflexivity. Qed.

(** A successful fetch replaces the list by the [events] array of the
    response, an empty list if the property is absent. *)
Lemma fetchEvents_success st evs s :
  fetchEvents (Response true st (Parsed (JValue evs))) s
  = {| events := default [] evs; loading := false; error := None |}.
Proof. destruct evs; reflexivity. Qed.

(** What the [catch] and [finally] blocks leave behind. *)
Lemma fetchEvents_catch r s err :
  try_block r = inl err →
  fetchEvents r s
  = {| events := events s; loading := false;
       error := Some (message err) |}.
Proof. unfold fetchEvents. intros ->. reflexivity. Qed.

(** C6. A fetch of the event list that fails (the request is rejected,
    the response is not 2xx, or the body does not parse) leaves the
    list it held unchanged, so it never empties a non-empty list; of
    the state it only sets the error flag, to the message of the
    error, and, like every fetch, ends with the loading flag off. *)
Theorem failed_fetch_keeps_events (r : Fetch) (s : State) :
  failed r = true →
  ∃ err,
    try_block r = inl err ∧
    fetchEvents r s
    = {| events := events s; loading := false;
         error := Some (message err) |}.
Proof.
  unfold failed. destruct (try_block r) as [err|evs] eqn:Htry.
  - intros _. exists err. split; [reflexivity|].
    by apply fetchEvents_catch.
  - discriminate.
Qed.

Lemma failed_fetch_keeps_events_witness :
  failed (Response false 503 (Parsed (JValue (Some [])))) = true ∧
  ∃ err,
    try_block (Response false 503 (Parsed (JValue (Some [])))) = inl err ∧
    fetchEvents (Response false 503 (Parsed (JValue (Some []))))
      Examples.one_event
    = {| events := [Examples.aapl]; loading := false;
         error := Some (message err) |}.
Proof.
  split; [reflexivity|].
  apply (failed_fetch_keeps_events
           (Response false 503 (Parsed (JValue (Some []))))
           Examples.one_event).
  reflexivity.
Defined.

Corollary failed_fetch_never_empties r s :
  failed r = true → events s ≠ [] → events (fetchEvents r s) ≠ [].
Proof.
  unfold failed. destruct (try_block r) as [err|evs] eqn:Htry.
  - intros _ Hne. by rewrite (fetchEvents_catch r s err Htry).
  - discriminate.
Qed.

End EventListFacts.

(* ================================================================== *)
(** ** The stream session controller: single operations *)
(* ================================================================== *)

Section Operations.
Import StreamPlayer.
Variable b : Browser.

Lemma alter_snoc {A} (f : A → A) (l : list A) (x : A) :
  alter f (length l) (l ++ [x]) = l ++ [f x].
Proof.
  replace (length l) with (length l + 0) by lia.
  by rewrite alter_app_r.
Qed.

(** *** connectStream *)

(** C8. Invoking connect while no rendering surface is bound (the
    video reference is null) does nothing at all: the session state,
    the error descriptor, the playing flag and the engine reference
    are unchanged, no engine instance is created and no call is
    issued. *)
Theorem connect_without_surface_noop (s : State) :
  videoRef s = None → connectStream b s = s.
Proof. unfold connectStream. by intros ->. Qed.

(** What connect does when hls.js is supported and there is a stream
    URL: one new instance, loaded, attached, wired and stored in
    [hlsRef]. *)
Lemma connectStream_supported (s : State) (v : nat) (url : string) :
  videoRef s = Some v → isSupported b = true → streamUrl s = Some url →
  connectStream b s
  = {| event := event s; streamUrl := Some url; videoRef := Some v;
       hlsRef := Some (length (engines s));
       isPlaying := isPlaying s; status := Connecting; error := None;
       volume := volume s; videos := videos s;
       engines :=
         engines s ++
         [{| Hls.destroyed := false;
             Hls.source := Some url;
             Hls.media := Some v;
             Hls.listeners := wiring (length (engines s)) v |}];
       calls :=
         HlsOn (length (engines s)) Hls.ERROR
         :: HlsOn (length (engines s)) Hls.MANIFEST_PARSED
         :: HlsAttachMedia (length (engines s)) v
         :: HlsLoadSource (length (engines s)) (Some url)
         :: HlsNew (length (engines s)) :: calls s |}.
Proof.
  intros Hv Hs Hu. unfold connectStream. rewrite Hv, Hs.
  destruct s as [e u v0 h p st er vol vs es cs]. cbn in *. subst v0 u.
  cbn. rewrite !alter_snoc. reflexivity.
Qed.

(** What connect does when hls.js is supported and the stream URL is
    [undefined]: [loadSource] throws, and what is left is a new
    instance that nothing refers to, in state connecting. *)
Lemma connectStream_throws (s : State) (v : nat) :
  videoRef s = Some v → isSupported b = true → streamUrl s = None →
  connectStream b s
  = {| event := event s; streamUrl := None; videoRef := Some v;
       hlsRef := hlsRef s;
       isPlaying := isPlaying s; status := Connecting; error := None;
       volume := volume s; videos := videos s;
       engines := engines s ++ [Hls.fresh];
       calls :=
         HlsLoadSource (length (engines s)) None
         :: HlsNew (length (engines s)) :: calls s |}.
Proof.
  intros Hv Hs Hu. unfold connectStream. rewrite Hv, Hs.
  destruct s as [e u v0 h p st er vol vs es cs]. cbn in *. subst v0 u.
  reflexivity.
Qed.

(** What connect does when only native playback is available. *)
Lemma connectStream_native (s : State) (v : nat) :
  videoRef s = Some v → isSupported b = false →
  truthy (Some (canPlayType b HLS_MIME)) = true →
  let s' := connectStream b s in
  status s' = Connecting ∧ error s' = None ∧ hlsRef s' = hlsRef s ∧
  engines s' = engines s ∧ isPlaying s' = isPlaying s ∧
  engine_calls (calls s') = engine_calls (calls s).
Proof.
  intros Hv Hs Hc. unfold connectStream. rewrite Hv, Hs, Hc.
  destruct s. cbn. repeat split; reflexivity.
Qed.

(** C10. If hls.js is not supported and the rendering surface cannot
    play the HLS media type natively, connect ends in state error
    with the descriptor 'HLS is not supported in this browser'; it
    creates no engine instance and issues no call. *)
Theorem connect_unsupported_error (s : State) (v : nat) :
  videoRef s = Some v →
  isSupported b = false →
  truthy (Some (canPlayType b HLS_MIME)) = false →
  let s' := connectStream b s in
  status s' = Error ∧
  error s' = Some "HLS is not supported in this browser" ∧
  engines s' = engines s ∧ hlsRef s' = hlsRef s ∧ calls s' = calls s.
Proof.
  intros Hv Hs Hc. unfold connectStream. rewrite Hv, Hs, Hc.
  destruct s. cbn. repeat split; reflexivity.
Qed.

(** *** disconnectStream and the effect cleanup *)

Lemma disconnectStream_fields (s : State) :
  let s' := disconnectStream s in
  status s' = Disconnected ∧ isPlaying s' = false ∧ error s' = None ∧
  hlsRef s' = None ∧ videoRef s' = videoRef s ∧ event s' = event s ∧
  streamUrl s' = streamUrl s ∧ volume s' = volume s ∧
  length (videos s') = length (videos s).
Proof.
  unfold disconnectStream.
  destruct s as [e u [v|] [h|] p st er vol vs es cs]; cbn;
    rewrite ?length_alter; repeat split; reflexivity.
Qed.

(** C9. Disconnect is total and idempotent: from every state it ends
    in state disconnected with the playing flag off and the error
    descriptor cleared, and running it a second time changes nothing
    of the session (the second run issues no engine call). *)
Theorem disconnect_idempotent (s : State) :
  let s' := disconnectStream s in
  status s' = Disconnected ∧ isPlaying s' = false ∧ error s' = None ∧
  same_session (disconnectStream s') s' ∧
  engine_calls (calls (disconnectStream s')) = engine_calls (calls s').
Proof.
  cbn zeta. unfold same_session, disconnectStream.
  destruct s as [e u [v|] [h|] p st er vol vs es cs]; cbn;
    rewrite ?list_alter_alter_eq; repeat split; reflexivity.
Qed.

End Operations.

(* ================================================================== *)
(** ** The invariant of the mounted component *)
(* ================================================================== *)

Section Invariant.
Import StreamPlayer.
Variable b : Browser.

(** Preservation by any code that keeps the surface bound as it is,
    creates no engine instance and leaves the live instances alone or
    destroys them. *)
Lemma Inv_preserved (s s' : State) :
  Inv s →
  event s' = event s → videoRef s' = videoRef s →
  length (videos s') = length (videos s) →
  Forall (λ x, in_unit_interval (Video.volume x)) (videos s') →
  (status s' = Disconnected → hlsRef s' = None) →
  (∀ h, hlsRef s' = Some h → hlsRef s = Some h) →
  (∀ h inst, engines s !! h = Some inst →
     ∃ inst', engines s' !! h = Some inst' ∧
              Hls.source inst' = Hls.source inst) →
  (∀ h inst', engines s' !! h = Some inst' →
     Hls.destroyed inst' = false → present (Hls.source inst') = true →
     hlsRef s' = hlsRef s ∧
     ∃ inst, engines s !! h = Some inst ∧ Hls.destroyed inst = false ∧
             present (Hls.source inst) = true ∧
             Hls.listeners inst = Hls.listeners inst') →
  Inv s'.
Proof.
  intros [] He Hv Hlen Hvol Hdisc Href Hsrc Hlive. split.
  - by rewrite Hv, He.
  - intros v Hv'. rewrite Hv in Hv'.
    apply lookup_lt_is_Some. rewrite Hlen.
    by apply lookup_lt_is_Some, inv_surface_valid0.
  - exact Hvol.
  - exact Hdisc.
  - intros h Hh.
    destruct (inv_ref_loaded0 h (Href h Hh)) as (inst & Hl & Hp).
    destruct (Hsrc h inst Hl) as (inst' & Hl' & Hs).
    exists inst'. by rewrite Hs.
  - intros h inst' Hl Hd Hp.
    destruct (Hlive h inst' Hl Hd Hp) as (Hr & inst & Hl0 & Hd0 & Hp0 & Hls).
    destruct (inv_live0 h inst Hl0 Hd0 Hp0) as (Href0 & v & Hv0 & Hw).
    split; [congruence|]. exists v. split; congruence.
Qed.

(** Preservation by code that leaves the engines and their reference
    alone. *)
Lemma Inv_same_engines (s s' : State) :
  Inv s →
  event s' = event s → videoRef s' = videoRef s →
  length (videos s') = length (videos s) →
  Forall (λ x, in_unit_interval (Video.volume x)) (videos s') →
  (status s' = Disconnected → hlsRef s' = None) →
  engines s' = engines s → hlsRef s' = hlsRef s →
  Inv s'.
Proof.
  intros HI He Hv Hlen Hvol Hdisc Heng Href.
  apply (Inv_preserved s); try done.
  - intros h. by rewrite Href.
  - intros h inst. rewrite Heng. intros Hl. by exists inst.
  - intros h inst. rewrite Heng. intros Hl Hd Hp.
    split; [done|]. by exists inst.
Qed.

(** Looking up an instance after another one was destroyed. *)
Lemma lookup_destroy_live (l : list Hls.t) (k h : nat) (inst' : Hls.t) :
  alter Hls.destroy k l !! h = Some inst' →
  Hls.destroyed inst' = false →
  h ≠ k ∧ l !! h = Some inst'.
Proof.
  intros Hl Hd. destruct (decide (k = h)) as [->|Hne].
  - rewrite list_lookup_alter_eq in Hl.
    destruct (l !! h); simplify_eq/=.
  - by rewrite list_lookup_alter_ne in Hl.
Qed.

(** Destroying an instance keeps the record of every source. *)
Lemma lookup_destroy_source (l : list Hls.t) (k h : nat) (inst : Hls.t) :
  l !! h = Some inst →
  ∃ inst', alter Hls.destroy k l !! h = Some inst' ∧
           Hls.source inst' = Hls.source inst.
Proof.
  intros Hl. destruct (decide (k = h)) as [->|Hne].
  - exists (Hls.destroy inst). by rewrite list_lookup_alter_eq, Hl.
  - exists inst. by rewrite list_lookup_alter_ne.
Qed.

Lemma Forall_alter_volume (f : Video.t → Video.t) (v : nat)
    (l : list Video.t) :
  (∀ x, Video.volume (f x) = Video.volume x) →
  Forall (λ x, in_unit_interval (Video.volume x)) l →
  Forall (λ x, in_unit_interval (Video.volume x)) (alter f v l).
Proof.
  intros Hf Hl. apply Forall_alter; [done|].
  intros x _ Hx. by rewrite Hf.
Qed.

(** *** The listeners *)

Lemma manifest_parsed_handler_inv (v : nat) (s : State) :
  Inv s → Inv (manifest_parsed_handler v s).
Proof.
  intros HI. apply (Inv_same_engines s);
    try exact HI; destruct s; cbn; try done.
  - apply length_alter.
  - apply Forall_alter_volume; [done|apply HI].
Qed.

Lemma hls_error_handler_inv (h : nat) (d : ErrorData) (s : State) :
  Inv s → Inv (hls_error_handler h d s).
Proof.
  intros HI. unfold hls_error_handler.
  destruct (fatal d);
    [destruct (String.eqb (type d) Hls.NETWORK_ERROR);
     [|destruct (String.eqb (type d) Hls.MEDIA_ERROR)]|].
  - apply (Inv_same_engines s);
      try exact HI; destruct s; cbn; try done; apply HI.
  - apply (Inv_same_engines s);
      try exact HI; destruct s; cbn; try done; apply HI.
  - apply (Inv_preserved s);
      try exact HI; destruct s; cbn; try done; try apply HI.
    + intros k inst. apply lookup_destroy_source.
    + intros k inst' Hl Hd Hp. split; [done|].
      apply lookup_destroy_live in Hl as [_ Hl]; [|done].
      by exists inst'.
  - apply (Inv_same_engines s);
      try exact HI; destruct s; cbn; try done; apply HI.
Qed.

Lemma video_error_handler_inv (s : State) :
  Inv s → Inv (video_error_handler s).
Proof.
  intros HI. apply (Inv_same_engines s);
    try exact HI; destruct s; cbn; try done; apply HI.
Qed.

Lemma run_listener_inv (d : option ErrorData) (l : Listener) (s : State) :
  Inv s → Inv (run_listener d l s).
Proof.
  destruct l as [v|h|v|]; cbn.
  - apply manifest_parsed_handler_inv.
  - destruct d; [apply hls_error_handler_inv|done].
  - apply manifest_parsed_handler_inv.
  - apply video_error_handler_inv.
Qed.

Lemma run_listeners_inv (d : option ErrorData) (ls : list Listener)
    (s : State) :
  Inv s → Inv (run_listeners d ls s).
Proof.
  unfold run_listeners. revert s.
  induction ls as [|l ls IH]; intros s HI; cbn; [done|].
  by apply IH, run_listener_inv.
Qed.

(** *** The playback controls *)

Lemma togglePlayPause_inv (s : State) :
  Inv s → Inv (togglePlayPause s).
Proof.
  intros HI. unfold togglePlayPause.
  destruct (videoRef s) as [v|] eqn:Hv; [|done].
  destruct (video_paused v s).
  - apply (Inv_same_engines s);
      try exact HI; destruct s; cbn; try done.
    + apply length_alter.
    + apply Forall_alter_volume; [done|apply HI].
    + apply HI.
  - apply (Inv_same_engines s);
      try exact HI; destruct s; cbn; try done.
    + apply length_alter.
    + apply Forall_alter_volume; [done|apply HI].
    + apply HI.
Qed.

(** The element takes a volume only when it lies in [0, 1]. *)
Lemma set_volume_Some (x : Q) (el el' : Video.t) :
  Video.set_volume x el = Some el' →
  in_unit_interval x ∧ Video.volume el' = x ∧
  Video.paused el' = Video.paused el ∧ Video.src el' = Video.src el ∧
  Video.listeners el' = Video.listeners el.
Proof.
  unfold Video.set_volume, Video.volume_ok.
  destruct (Qle_bool 0 x) eqn:Hlo; [|discriminate].
  destruct (Qle_bool x 1) eqn:Hhi; [|discriminate].
  cbn. intros [= <-].
  split; [split; by apply Qle_bool_iff|done].
Qed.

Lemma set_volume_None (x : Q) (el : Video.t) :
  Video.set_volume x el = None ↔ ¬ in_unit_interval x.
Proof.
  unfold Video.set_volume, Video.volume_ok, in_unit_interval.
  rewrite <- !Qle_bool_iff.
  destruct (Qle_bool 0 x), (Qle_bool x 1); cbn; split;
    try done; try (by intros _ [? ?]).
  intros H. by destruct H.
Qed.

(** What the volume slider's handler changes. *)
Lemma handleVolumeChange_fields (x : Q) (s : State) :
  let s' := handleVolumeChange x s in
  event s' = event s ∧ streamUrl s' = streamUrl s ∧
  videoRef s' = videoRef s ∧ hlsRef s' = hlsRef s ∧
  isPlaying s' = isPlaying s ∧ status s' = status s ∧
  error s' = error s ∧ volume s' = x ∧ engines s' = engines s ∧
  calls s' = match videoRef s with
             | Some v => VideoSetVolume v x :: calls s
             | None => calls s
             end ∧
  videos s' = match videoRef s with
              | Some v =>
                  match videos s !! v with
                  | Some el =>
                      match Video.set_volume x el with
                      | Some el' => <[v:=el']> (videos s)
                      | None => videos s
                      end
                  | None => videos s
                  end
              | None => videos s
              end.
Proof.
  unfold handleVolumeChange, video_set_volume.
  destruct s as [e u [v|] h p st er vol vs es cs]; cbn; [|done].
  destruct (vs !! v) as [el|]; [|done].
  by destruct (Video.set_volume x el).
Qed.

Lemma handleVolumeChange_inv (x : Q) (s : State) :
  Inv s → Inv (handleVolumeChange x s).
Proof.
  intros HI.
  pose proof (handleVolumeChange_fields x s) as
    (He & _ & Hv & Hh & _ & Hst & _ & _ & Heng & _ & Hvs).
  cbn zeta in *.
  apply (Inv_same_engines s); try done.
  - rewrite Hvs. destruct (videoRef s) as [v|]; [|done].
    destruct (videos s !! v) as [el|]; [|done].
    destruct (Video.set_volume x el); [|done]. apply length_insert.
  - rewrite Hvs. destruct (videoRef s) as [v|]; [|apply HI].
    destruct (videos s !! v) as [el|]; [|apply HI].
    destruct (Video.set_volume x el) as [el'|] eqn:Hset; [|apply HI].
    apply Forall_insert; [apply HI|].
    destruct (set_volume_Some x el el' Hset) as (Hx & -> & _). exact Hx.
  - rewrite Hst, Hh. apply HI.
Qed.

(** *** Teardown *)

(** After the instance in [hlsRef] is destroyed, no instance that was
    given a source is live. *)
Lemma no_stream_after_destroy (s : State) (l : list Hls.t) :
  Inv s →
  l = match hlsRef s with
      | Some k => alter Hls.destroy k (engines s)
      | None => engines s
      end →
  ∀ h inst, l !! h = Some inst → Hls.destroyed inst = false →
    Hls.source inst = None.
Proof.
  intros HI -> h inst Hl Hd.
  destruct (Hls.source inst) as [url|] eqn:Hu; [exfalso|done].
  assert (present (Hls.source inst) = true) as Hp by (by rewrite Hu).
  destruct (hlsRef s) as [k|] eqn:Hk.
  - apply lookup_destroy_live in Hl as [Hne Hl]; [|done].
    destruct (inv_live s HI h inst Hl Hd Hp) as [Href _]. congruence.
  - destruct (inv_live s HI h inst Hl Hd Hp) as [Href _]. congruence.
Qed.

(** The instance in [hlsRef] is released by that. *)
Lemma released_after_destroy (s s' : State) (h : nat) :
  Inv s → hlsRef s = Some h →
  engines s' = alter Hls.destroy h (engines s) →
  released h s'.
Proof.
  intros HI Hh Heng.
  destruct (inv_ref_loaded s HI h Hh) as (inst & Hl & _).
  exists (Hls.destroy inst). rewrite Heng.
  by rewrite list_lookup_alter_eq, Hl.
Qed.

Lemma disconnectStream_engines (s : State) :
  engines (disconnectStream s)
  = match hlsRef s with
    | Some k => alter Hls.destroy k (engines s)
    | None => engines s
    end.
Proof.
  unfold disconnectStream.
  by destruct s as [e u [v|] [h|] p st er vol vs es cs].
Qed.

Lemma cleanup_engines (s : State) :
  engines (cleanup s)
  = match hlsRef s with
    | Some k => alter Hls.destroy k (engines s)
    | None => engines s
    end.
Proof.
  unfold cleanup. by destruct s as [e u v [h|] p st er vol vs es cs].
Qed.

Lemma disconnectStream_no_stream (s : State) :
  Inv s → no_stream_live (disconnectStream s).
Proof.
  intros HI h inst. apply (no_stream_after_destroy s); [done|].
  apply disconnectStream_engines.
Qed.

Lemma cleanup_no_stream (s : State) :
  Inv s → no_stream_live (cleanup s).
Proof.
  intros HI h inst. apply (no_stream_after_destroy s); [done|].
  apply cleanup_engines.
Qed.

Lemma disconnectStream_inv (s : State) :
  Inv s → Inv (disconnectStream s).
Proof.
  intros HI. pose proof (disconnectStream_no_stream s HI) as Hno.
  pose proof (disconnectStream_fields s) as
    (Hst & _ & _ & Href & Hv & He & _ & _ & Hlen).
  apply (Inv_preserved s); try done.
  - unfold disconnectStream.
    destruct s as [e u [v|] [h|] p st er vol vs es cs]; cbn;
      try apply HI.
    all: apply Forall_alter_volume; [done|].
    all: apply Forall_alter_volume; [done|apply HI].
  - intros h Hh. cbn zeta in Href. congruence.
  - intros h inst Hl. rewrite disconnectStream_engines.
    destruct (hlsRef s); [by apply lookup_destroy_source|by exists inst].
  - intros h inst' Hl Hd Hp. rewrite (Hno h inst' Hl Hd) in Hp.
    discriminate.
Qed.

(** *** Connecting *)

(** Connect is only ever run with an empty engine reference (see
    [step_inv]).  With a stream URL it leaves the new instance as the
    one live instance that has a source; without one it leaves the
    reference empty. *)
Lemma connectStream_inv (s : State) :
  Inv s → hlsRef s = None → Inv (connectStream b s).
Proof.
  intros HI Href.
  destruct (videoRef s) as [v|] eqn:Hv;
    [|unfold connectStream; by rewrite Hv].
  destruct (isSupported b) eqn:Hsup;
    [destruct (streamUrl s) as [url|] eqn:Hu|].
  - rewrite (connectStream_supported b s v url Hv Hsup Hu).
    split; cbn.
    + pose proof (inv_surface s HI) as Hp. by rewrite Hv in Hp.
    + intros v' [= <-]. apply (inv_surface_valid s HI). exact Hv.
    + apply HI.
    + discriminate.
    + intros h [= <-]. rewrite lookup_app_r by lia.
      rewrite Nat.sub_diag. by eexists.
    + intros h inst [Hl|[Hlen Hl]]%lookup_app_Some Hd Hp.
      * destruct (inv_live s HI h inst Hl Hd Hp) as [Hh _]. congruence.
      * destruct (h - length (engines s)) as [|n] eqn:Hn;
          [|by destruct n].
        injection Hl as <-. assert (h = length (engines s)) as -> by lia.
        split; [done|]. by exists v.
  - rewrite (connectStream_throws b s v Hv Hsup Hu).
    split; cbn.
    + pose proof (inv_surface s HI) as Hp. by rewrite Hv in Hp.
    + intros v' [= <-]. apply (inv_surface_valid s HI). exact Hv.
    + apply HI.
    + discriminate.
    + intros h Hh. congruence.
    + intros h inst [Hl|[Hlen Hl]]%lookup_app_Some Hd Hp.
      * destruct (inv_live s HI h inst Hl Hd Hp) as [Hh _]. congruence.
      * destruct (h - length (engines s)) as [|n] eqn:Hn;
          [|by destruct n].
        injection Hl as <-. discriminate Hp.
  - unfold connectStream. rewrite Hv, Hsup.
    destruct (truthy (Some (canPlayType b HLS_MIME))).
    + apply (Inv_same_engines s);
        try exact HI; destruct s; cbn; try done.
      * by rewrite !length_alter.
      * do 3 (apply Forall_alter_volume; [done|]). apply HI.
    + apply (Inv_same_engines s);
        try exact HI; destruct s; cbn; try done.
      apply HI.
Qed.

(** *** Rendering and the effect *)

Lemma fresh_volume : in_unit_interval (Video.volume Video.fresh).
Proof. split; cbn; discriminate. Qed.

Lemma render_fields (e : option nat) (u : option string) (s : State) :
  let s' := render e u s in
  event s' = e ∧ streamUrl s' = u ∧ hlsRef s' = hlsRef s ∧
  engines s' = engines s ∧ calls s' = calls s ∧ status s' = status s ∧
  isPlaying s' = isPlaying s ∧ error s' = error s.
Proof.
  unfold render.
  by destruct s as [e0 u0 [v|] h p st er vol vs es cs], e.
Qed.

Lemma cleanup_fields (s : State) :
  let s' := cleanup s in
  event s' = event s ∧ streamUrl s' = streamUrl s ∧
  videoRef s' = videoRef s ∧ videos s' = videos s ∧ hlsRef s' = None ∧
  status s' = status s ∧ isPlaying s' = isPlaying s ∧
  error s' = error s ∧ volume s' = volume s ∧
  calls s' = match hlsRef s with
             | Some k => HlsDestroy k :: calls s
             | None => calls s
             end.
Proof.
  unfold cleanup.
  by destruct s as [e u v [h|] p st er vol vs es cs].
Qed.

(** After a render whose dependencies changed, the cleanup leaves an
    empty engine reference and no live instance that has a source. *)
Lemma cleanup_render_inv (e : option nat) (u : option string)
    (s : State) :
  Inv s →
  Inv (cleanup (render e u s)) ∧ hlsRef (cleanup (render e u s)) = None ∧
  no_stream_live (cleanup (render e u s)).
Proof.
  intros HI.
  pose proof (render_fields e u s) as
    (He & Hu & Href & Heng & Hcalls & _).
  pose proof (cleanup_fields (render e u s)) as
    (He' & Hu' & Hv' & Hvs' & Hnone & Hst' & _ & _ & _ & Hcalls').
  cbn zeta in *.
  assert (no_stream_live (cleanup (render e u s))) as Hno.
  { intros h inst. apply (no_stream_after_destroy s _ HI).
    rewrite cleanup_engines, Href, Heng. done. }
  split; [|done]. split.
  - rewrite Hv', He', He. unfold render.
    by destruct s as [e0 u0 [v|] h p st er vol vs es cs], e.
  - rewrite Hv', Hvs'. intros v.
    pose proof (inv_surface_valid s HI) as Hvalid. unfold render.
    destruct s as [e0 u0 [v0|] h p st er vol vs es cs], e;
      cbn in *; try done.
    + apply Hvalid.
    + intros [= <-]. rewrite lookup_app_r by lia.
      rewrite Nat.sub_diag. by eexists.
  - rewrite Hvs'. pose proof (inv_volume s HI) as Hvol. unfold render.
    destruct s as [e0 u0 [v0|] h p st er vol vs es cs], e;
      cbn in *; try done.
    apply Forall_app_2; [done|].
    apply Forall_cons_2; [apply fresh_volume|apply Forall_nil_2].
  - done.
  - intros h Hh. congruence.
  - intros h inst Hl Hd Hp. rewrite (Hno h inst Hl Hd) in Hp.
    discriminate.
Qed.

Lemma effect_inv (s : State) :
  Inv s → hlsRef s = None → Inv (effect b s).
Proof.
  intros HI Href. unfold effect.
  destruct (present (event s) && truthy (streamUrl s)); [|done].
  by apply connectStream_inv.
Qed.

(** A render with the dependencies (and so the props) unchanged. *)
Lemma render_unchanged (e : option nat) (u : option string) (s : State) :
  Inv s → deps_changed e u s = false → render e u s = s.
Proof.
  intros HI Hd. unfold deps_changed in Hd.
  apply negb_false_iff, bool_decide_eq_true in Hd as [<- <-].
  pose proof (inv_surface s HI) as Hs.
  unfold render. destruct s as [e u v h p st er vol vs es cs].
  cbn in *. destruct e, v; cbn in *; done.
Qed.

Lemma update_inv (e : option nat) (u : option string) (s : State) :
  Inv s → Inv (update b e u s).
Proof.
  intros HI. unfold update. destruct (deps_changed e u s) eqn:Hd.
  - destruct (cleanup_render_inv e u s HI) as (HI' & Href & _).
    by apply effect_inv.
  - by rewrite render_unchanged.
Qed.

Lemma initial_inv : Inv initial.
Proof. split; cbn; done. Qed.

Lemma mount_inv (e : option nat) (u : option string) : Inv (mount b e u).
Proof.
  unfold mount.
  destruct (cleanup_render_inv e u initial initial_inv)
    as (HI' & Href & _).
  assert (cleanup (render e u initial) = render e u initial) as Hc.
  { unfold cleanup, render. cbn. by destruct e. }
  rewrite Hc in *. by apply effect_inv.
Qed.

(** *** Every action preserves the invariant *)

Lemma Status_eqb_eq (x y : Status) : Status_eqb x y = true ↔ x = y.
Proof. destruct x, y; cbn; split; congruence. Qed.

Lemma hls_emit_inv (h : nat) (ev : EngineEvent) (s : State) :
  Inv s → Inv (hls_emit h ev s).
Proof.
  intros HI. unfold hls_emit. destruct (engines s !! h); [|done].
  destruct ev; by apply run_listeners_inv.
Qed.

Lemma video_emit_inv (v : nat) (ev : string) (s : State) :
  Inv s → Inv (video_emit v ev s).
Proof.
  intros HI. unfold video_emit. destruct (videos s !! v); [|done].
  by apply run_listeners_inv.
Qed.

Lemma step_inv (a : Action) (s : State) :
  Inv s → enabled a s = true → Inv (step b a s).
Proof.
  intros HI Hen. destruct a as [e u| | | |x|h ev|v ev]; cbn in *.
  - by apply update_inv.
  - apply andb_true_iff in Hen as [_ Hst%Status_eqb_eq].
    apply connectStream_inv; [done|]. by apply HI.
  - by apply disconnectStream_inv.
  - by apply togglePlayPause_inv.
  - by apply handleVolumeChange_inv.
  - by apply hls_emit_inv.
  - by apply video_emit_inv.
Qed.

Lemma reachable_inv (s : State) : reachable b s → Inv s.
Proof.
  induction 1 as [e u|a s _ IH Hen].
  - apply mount_inv.
  - by apply step_inv.
Qed.

End Invariant.

(* ================================================================== *)
(** ** Engine events in reachable states *)
(* ================================================================== *)

Section EngineEvents.
Import StreamPlayer.
Variable b : Browser.

(** An instance that can emit is the one [connectStream] created
    last: it is the one in [hlsRef] and carries the two listeners. *)
Lemma emitting_instance (s : State) (h : nat) (ev : EngineEvent) :
  reachable b s → enabled (HlsEmit h ev) s = true →
  hlsRef s = Some h ∧
  ∃ inst v, engines s !! h = Some inst ∧ videoRef s = Some v ∧
            Hls.listeners inst = wiring h v.
Proof.
  intros Hr Hen. apply reachable_inv in Hr. cbn in Hen.
  destruct (engines s !! h) as [inst|] eqn:Hl; [|discriminate].
  apply andb_true_iff in Hen as [Hd%negb_true_iff Hp].
  destruct (inv_live s Hr h inst Hl Hd Hp) as (Href & v & Hv & Hw).
  split; [done|]. by exists inst, v.
Qed.

(** Delivery of a manifest-parsed event runs the one handler. *)
Lemma hls_emit_manifest_parsed (s : State) (h : nat) :
  reachable b s → enabled (HlsEmit h ManifestParsed) s = true →
  ∃ v, videoRef s = Some v ∧
       hls_emit h ManifestParsed s = manifest_parsed_handler v s.
Proof.
  intros Hr Hen.
  destruct (emitting_instance s h _ Hr Hen)
    as (_ & inst & v & Hl & Hv & Hw).
  exists v. split; [done|]. unfold hls_emit. by rewrite Hl, Hw.
Qed.

(** Delivery of an error event runs the one handler, with the
    emitting instance captured. *)
Lemma hls_emit_error (s : State) (h : nat) (d : ErrorData) :
  reachable b s → enabled (HlsEmit h (EngineError d)) s = true →
  hlsRef s = Some h ∧
  hls_emit h (EngineError d) s = hls_error_handler h d s.
Proof.
  intros Hr Hen.
  destruct (emitting_instance s h _ Hr Hen)
    as (Href & inst & v & Hl & Hv & Hw).
  split; [done|]. unfold hls_emit. by rewrite Hl, Hw.
Qed.

(** C5. In state connecting, a manifest-parsed signal from the engine
    always yields state connected, with the playing flag set and
    exactly one play() call, issued on the bound rendering surface;
    nothing else is called. *)
Theorem manifest_parsed_connects_and_plays (s : State) (h : nat) :
  reachable b s → status s = Connecting →
  enabled (HlsEmit h ManifestParsed) s = true →
  let s' := step b (HlsEmit h ManifestParsed) s in
  status s' = Connected ∧ isPlaying s' = true ∧
  ∃ v, videoRef s = Some v ∧ calls s' = VideoPlay v :: calls s.
Proof.
  intros Hr _ Hen.
  destruct (hls_emit_manifest_parsed s h Hr Hen) as (v & Hv & Heq).
  cbn. rewrite Heq. unfold manifest_parsed_handler.
  destruct s as [e u v0 h0 p st er vol vs es cs]; cbn in *.
  repeat split. by exists v.
Qed.

(** *** Listeners and the engine *)

(** Listeners run without an error payload touch no engine. *)
Lemma run_listeners_no_engine (ls : list Listener) (s : State) :
  let s' := run_listeners None ls s in
  engines s' = engines s ∧ hlsRef s' = hlsRef s ∧
  engine_calls (calls s') = engine_calls (calls s).
Proof.
  unfold run_listeners. revert s.
  induction ls as [|l ls IH]; intros s; cbn; [done|].
  destruct (IH (run_listener None l s)) as (-> & -> & ->).
  by destruct l, s.
Qed.

(** *** Instances that were never given a source *)

Lemma lookup_unloaded (s : State) (k h : nat) (inst : Hls.t) :
  Inv s → hlsRef s = Some k →
  engines s !! h = Some inst → Hls.source inst = None →
  alter Hls.destroy k (engines s) !! h = Some inst.
Proof.
  intros HI Hk Hl Hsrc.
  destruct (inv_ref_loaded s HI k Hk) as (inst' & Hl' & Hp).
  destruct (decide (k = h)) as [->|Hne].
  - rewrite Hl in Hl'. injection Hl' as <-.
    rewrite Hsrc in Hp. discriminate.
  - by rewrite list_lookup_alter_ne.
Qed.

(** Connect only ever adds to the store of instances. *)
Lemma connectStream_lookup (s : State) (h : nat) (inst : Hls.t) :
  engines s !! h = Some inst →
  engines (connectStream b s) !! h = Some inst.
Proof.
  intros Hl.
  assert (∃ new, engines (connectStream b s) = engines s ++ new)
    as [new ->]; [|by apply lookup_app_l_Some].
  destruct (videoRef s) as [v|] eqn:Hv.
  - destruct (isSupported b) eqn:Hsup;
      [destruct (streamUrl s) as [url|] eqn:Hu|].
    + rewrite (connectStream_supported b s v url Hv Hsup Hu).
      by eexists.
    + rewrite (connectStream_throws b s v Hv Hsup Hu). by eexists.
    + exists []. rewrite app_nil_r. unfold connectStream.
      rewrite Hv, Hsup.
      by destruct (truthy (Some (canPlayType b HLS_MIME))), s.
  - exists []. rewrite app_nil_r. unfold connectStream. by rewrite Hv.
Qed.

(** An instance that was never given a source is out of reach: no
    action of the component touches it. *)
Lemma unloaded_instance_step (a : Action) (s : State) (h : nat)
    (inst : Hls.t) :
  reachable b s → enabled a s = true →
  engines s !! h = Some inst → Hls.source inst = None →
  engines (step b a s) !! h = Some inst.
Proof.
  intros Hr Hen Hl Hsrc. pose proof (reachable_inv b s Hr) as HI.
  destruct a as [e u| | | |x|k [|d]|v ev]; cbn [step].
  - unfold update. destruct (deps_changed e u s) eqn:Hd;
      [|by rewrite render_unchanged].
    assert (engines (cleanup (render e u s)) !! h = Some inst) as Hl'.
    { pose proof (render_fields e u s) as (_ & _ & Href & Heng & _).
      cbn zeta in *. rewrite cleanup_engines, Href, Heng.
      destruct (hlsRef s) as [k|] eqn:Hk; [|done].
      by apply (lookup_unloaded s). }
    unfold effect.
    destruct (present (event (cleanup (render e u s)))
              && truthy (streamUrl (cleanup (render e u s)))); [|done].
    by apply connectStream_lookup.
  - by apply connectStream_lookup.
  - rewrite disconnectStream_engines.
    destruct (hlsRef s) as [k|] eqn:Hk; [|done].
    by apply (lookup_unloaded s).
  - unfold togglePlayPause. destruct (videoRef s) as [v|]; [|done].
    by destruct (video_paused v s), s.
  - pose proof (handleVolumeChange_fields x s) as
      (_ & _ & _ & _ & _ & _ & _ & _ & Heng & _).
    cbn zeta in *. by rewrite Heng.
  - destruct (hls_emit_manifest_parsed s k Hr Hen) as (v & _ & ->).
    by destruct s.
  - destruct (hls_emit_error s k d Hr Hen) as [Hk ->].
    unfold hls_error_handler.
    destruct (fatal d);
      [destruct (String.eqb (type d) Hls.NETWORK_ERROR);
       [|destruct (String.eqb (type d) Hls.MEDIA_ERROR)]|];
      try (by destruct s).
    assert (alter Hls.destroy k (engines s) !! h = Some inst) as Hl'
      by (by apply (lookup_unloaded s)).
    by destruct s.
  - unfold video_emit. destruct (videos s !! v) as [x|]; [|done].
    destruct (run_listeners_no_engine
                (listeners_for ev (Video.listeners x)) s) as (-> & _).
    done.
Qed.

Lemma unloaded_instance_kept (s s' : State) (h : nat) (inst : Hls.t) :
  run b s s' → reachable b s →
  engines s !! h = Some inst → Hls.source inst = None →
  engines s' !! h = Some inst.
Proof.
  induction 1 as [s|a s s' Hen Hrun IH]; intros Hr Hl Hsrc; [done|].
  apply IH; [by apply reachable_step|by apply unloaded_instance_step|done].
Qed.

(** *** After the engine was released *)

(** What one action that does not connect can still call on the
    engine once no instance that has a source is live: nothing, or one
    more [destroy] on the instance left in [hlsRef], which clears
    it. *)
Lemma quiet_step (a : Action) (s : State) :
  Inv s → no_stream_live s →
  enabled a s = true → connects a s = false →
  let s' := step b a s in
  no_stream_live s' ∧
  ((hlsRef s' = hlsRef s ∧
    engine_calls (calls s') = engine_calls (calls s)) ∨
   (∃ h, hlsRef s = Some h ∧ hlsRef s' = None ∧
         engine_calls (calls s')
         = HlsDestroy h :: engine_calls (calls s))).
Proof.
  intros HI Hrel Hen Hco.
  destruct a as [e u| | | |x|h ev|v ev]; cbn in *.
  - unfold update. destruct (deps_changed e u s) eqn:Hd.
    + destruct (cleanup_render_inv e u s HI) as (_ & Hnone & Hrel').
      pose proof (render_fields e u s) as
        (He & Hu & Href & _ & Hcalls & _).
      pose proof (cleanup_fields (render e u s)) as
        (He' & Hu' & _ & _ & _ & _ & _ & _ & _ & Hcalls').
      cbn zeta in *.
      assert (effect b (cleanup (render e u s))
              = cleanup (render e u s)) as ->.
      { unfold effect. rewrite He', Hu', He, Hu.
        cbn in Hco. by rewrite Hco. }
      split; [done|]. rewrite Hnone, Hcalls', Href, Hcalls.
      destruct (hlsRef s) as [k|]; [right|left]; [|done].
      by exists k.
    + rewrite render_unchanged by done. split; [done|]. by left.
  - discriminate.
  - split; [by apply disconnectStream_no_stream|].
    unfold disconnectStream.
    destruct s as [e u [v|] [k|] p st er vol vs es cs]; cbn;
      first [by left | right; by exists k].
  - split.
    + intros h inst. unfold togglePlayPause.
      destruct (videoRef s) as [v|]; [|apply Hrel].
      destruct (video_paused v s), s; apply Hrel.
    + left. unfold togglePlayPause.
      destruct (videoRef s) as [v|]; [|done].
      by destruct (video_paused v s), s.
  - pose proof (handleVolumeChange_fields x s) as
      (_ & _ & _ & Hh & _ & _ & _ & _ & Heng & Hcalls & _).
    cbn zeta in *. split.
    + intros h inst. rewrite Heng. apply Hrel.
    + left. split; [done|]. rewrite Hcalls.
      by destruct (videoRef s).
  - destruct (engines s !! h) as [inst|] eqn:Hl; [|discriminate].
    apply andb_true_iff in Hen as [Hd%negb_true_iff Hp].
    rewrite (Hrel h inst Hl Hd) in Hp. discriminate.
  - unfold video_emit. destruct (videos s !! v) as [x|]; [|by auto].
    destruct (run_listeners_no_engine
                (listeners_for ev (Video.listeners x)) s)
      as (Heng & Href & Hcalls).
    split; [|by left].
    intros h inst. rewrite Heng. apply Hrel.
Qed.

Lemma quiet_run (s s' : State) :
  run_without_connect b s s' →
  Inv s → no_stream_live s →
  (hlsRef s' = hlsRef s ∧
   engine_calls (calls s') = engine_calls (calls s)) ∨
  (∃ h, hlsRef s = Some h ∧ hlsRef s' = None ∧
        engine_calls (calls s')
        = HlsDestroy h :: engine_calls (calls s)).
Proof.
  induction 1 as [s|a s s' Hen Hco Hrun IH]; intros HI Hrel; [by left|].
  destruct (quiet_step a s HI Hrel Hen Hco) as [Hrel1 Hstep].
  specialize (IH (step_inv b a s HI Hen) Hrel1).
  destruct Hstep as [[Href Hcalls]|(h & Href & Hnone & Hcalls)].
  - rewrite Href, Hcalls in IH. exact IH.
  - rewrite Hnone, Hcalls in IH.
    destruct IH as [[Href' Hcalls']|(k & Hk & _)]; [|discriminate].
    right. by exists h.
Qed.

(** *** Fatal errors *)

(** A change of props that does not connect keeps the session state. *)
Lemma update_keeps_status (e : option nat) (u : option string)
    (s : State) :
  Inv s → connects (SetProps e u) s = false →
  status (update b e u s) = status s.
Proof.
  intros HI Hco. cbn in Hco. unfold update.
  destruct (deps_changed e u s) eqn:Hd;
    [|by rewrite render_unchanged].
  pose proof (render_fields e u s) as (He & Hu & _ & _ & _ & Hst & _).
  pose proof (cleanup_fields (render e u s)) as
    (He' & Hu' & _ & _ & _ & Hst' & _).
  cbn zeta in *. unfold effect. rewrite He', Hu', He, Hu.
  cbn in Hco. rewrite Hco. congruence.
Qed.

(** The error state persists until a disconnect, a connect or a signal
    that the stream is ready. *)
Lemma error_state_persists (a : Action) (s : State) :
  reachable b s → status s = Error →
  enabled a s = true → leaves_state a s = false →
  status (step b a s) = Error.
Proof.
  intros Hr Hst Hen Hl.
  destruct a as [e u| | | |x|h [|d]|v ev]; try discriminate Hl.
  - cbn [step].
    by rewrite (update_keeps_status e u s (reachable_inv b s Hr) Hl).
  - cbn in Hen. rewrite Hst in Hen.
    by rewrite andb_false_r in Hen.
  - cbn in Hen. rewrite Hst in Hen.
    by rewrite andb_false_r in Hen.
  - destruct (hls_emit_error s h d Hr Hen) as [_ Heq].
    cbn [step]. rewrite Heq. unfold hls_error_handler.
    destruct (fatal d);
      [destruct (String.eqb (type d) Hls.NETWORK_ERROR);
       [|destruct (String.eqb (type d) Hls.MEDIA_ERROR)]|];
      by destruct s.
Qed.

(** The outcome of a fatal error event, by category. *)
Lemma hls_fatal_error_outcome (s : State) (h : nat) (d : ErrorData) :
  reachable b s →
  enabled (HlsEmit h (EngineError d)) s = true →
  fatal d = true →
  let s' := step b (HlsEmit h (EngineError d)) s in
  status s' = Error ∧
  error s' = Some (type d +:+ ": " +:+ details d) ∧
  hlsRef s' = Some h ∧
  (type d = Hls.NETWORK_ERROR →
     engine_calls (calls s') = HlsStartLoad h :: engine_calls (calls s) ∧
     engines s' = engines s) ∧
  (type d = Hls.MEDIA_ERROR →
     engine_calls (calls s')
     = HlsRecoverMediaError h :: engine_calls (calls s) ∧
     engines s' = engines s) ∧
  (type d ≠ Hls.NETWORK_ERROR → type d ≠ Hls.MEDIA_ERROR →
     engine_calls (calls s') = HlsDestroy h :: engine_calls (calls s) ∧
     isPlaying s' = false ∧ released h s' ∧ no_stream_live s' ∧
     ∀ s'', run_without_connect b s' s'' →
       engine_calls (calls s'') = engine_calls (calls s') ∨
       (hlsRef s'' = None ∧
        engine_calls (calls s'')
        = HlsDestroy h :: engine_calls (calls s'))).
Proof.
  intros Hr Hen Hfatal.
  pose proof (reachable_inv b s Hr) as HI.
  pose proof (step_inv b _ s HI Hen) as HI'.
  destruct (hls_emit_error s h d Hr Hen) as [Href Heq].
  assert (engines (hls_error_handler h d s)
          = alter Hls.destroy h (engines s) →
          released h (hls_error_handler h d s) ∧
          no_stream_live (hls_error_handler h d s)) as Hreleased.
  { intros Heng. split; [by apply (released_after_destroy s)|].
    intros k inst. rewrite Heng.
    apply (no_stream_after_destroy s _ HI). by rewrite Href. }
  cbn in *. rewrite Heq in *. clear Heq.
  unfold hls_error_handler in *. rewrite Hfatal in *.
  destruct (String.eqb (type d) Hls.NETWORK_ERROR) eqn:Hnet;
    [|destruct (String.eqb (type d) Hls.MEDIA_ERROR) eqn:Hmed].
  - apply String.eqb_eq in Hnet.
    destruct s as [e u v h0 p st er vol vs es cs]; cbn in *.
    do 4 (split; [done|]). split.
    + intros Hm. rewrite Hnet in Hm. discriminate.
    + intros Hn. by destruct Hn.
  - apply String.eqb_eq in Hmed.
    destruct s as [e u v h0 p st er vol vs es cs]; cbn in *.
    do 3 (split; [done|]). split; [|split; [done|]].
    + intros Hn. rewrite Hmed in Hn. discriminate.
    + intros _ Hm. by destruct Hm.
  - apply String.eqb_neq in Hnet, Hmed.
    destruct (Hreleased ltac:(by destruct s)) as [Hrel Hno].
    assert (hlsRef (setIsPlaying false
              (hls_destroy h
                 (setError (Some (type d +:+ ": " +:+ details d))
                    (setStatus Error
                       (call (ConsoleError "HLS error:") s)))))
            = Some h) as Href' by (by destruct s).
    split; [by destruct s|]. split; [by destruct s|].
    split; [done|].
    split; [done|]. split; [done|]. intros _ _.
    split; [by destruct s|]. split; [by destruct s|].
    split; [done|]. split; [done|]. intros s'' Hrun.
    destruct (quiet_run _ s'' Hrun HI' Hno)
      as [[_ Hc]|(k & Hk & Hnone & Hc)]; [by left|right].
    rewrite Href' in Hk. injection Hk as <-. done.
Qed.

(** C1 (as the code has it). For every fatal error event the engine
    delivers while the session is connecting or connected, the state
    becomes error, with the descriptor "type: details", and stays
    error until a disconnect, a connect or a signal that the stream is
    ready.  For the network category exactly one startLoad call is
    issued; for the media category exactly one recoverMediaError call;
    in both cases the instance is left as it is.  For any other
    category exactly one destroy call is issued, the playing flag is
    cleared, that instance is released and no instance that was given
    a source stays live; the engine reference keeps pointing at the
    released instance, so until a new connect the only engine call
    that can still follow is one more destroy on it, issued by the
    next disconnect or effect cleanup. *)
Theorem fatal_error_recovery (s : State) (h : nat) (d : ErrorData) :
  reachable b s →
  status s = Connecting ∨ status s = Connected →
  enabled (HlsEmit h (EngineError d)) s = true →
  fatal d = true →
  let s' := step b (HlsEmit h (EngineError d)) s in
  status s' = Error ∧
  error s' = Some (type d +:+ ": " +:+ details d) ∧
  hlsRef s' = Some h ∧
  (∀ a, enabled a s' = true → leaves_state a s' = false →
     status (step b a s') = Error) ∧
  (type d = Hls.NETWORK_ERROR →
     engine_calls (calls s') = HlsStartLoad h :: engine_calls (calls s) ∧
     engines s' = engines s) ∧
  (type d = Hls.MEDIA_ERROR →
     engine_calls (calls s')
     = HlsRecoverMediaError h :: engine_calls (calls s) ∧
     engines s' = engines s) ∧
  (type d ≠ Hls.NETWORK_ERROR → type d ≠ Hls.MEDIA_ERROR →
     engine_calls (calls s') = HlsDestroy h :: engine_calls (calls s) ∧
     isPlaying s' = false ∧ released h s' ∧ no_stream_live s' ∧
     ∀ s'', run_without_connect b s' s'' →
       engine_calls (calls s'') = engine_calls (calls s') ∨
       (hlsRef s'' = None ∧
        engine_calls (calls s'')
        = HlsDestroy h :: engine_calls (calls s'))).
Proof.
  intros Hr _ Hen Hfatal.
  destruct (hls_fatal_error_outcome s h d Hr Hen Hfatal)
    as (Hst & Her & Href & Hrest).
  split; [exact Hst|]. split; [exact Her|]. split; [exact Href|].
  split; [|exact Hrest].
  intros a Ha Hl. apply error_state_persists; try done.
  by apply reachable_step.
Qed.

End EngineEvents.

(* ================================================================== *)
(** ** Connect, teardown and the volume *)
(* ================================================================== *)

Section Lifecycle.
Import StreamPlayer.
Variable b : Browser.

Lemma connectStream_status (s : State) (v : nat) :
  videoRef s = Some v → can_stream b →
  status (connectStream b s) = Connecting ∧
  error (connectStream b s) = None.
Proof.
  intros Hv Hcan. destruct (isSupported b) eqn:Hsup.
  - destruct (streamUrl s) as [url|] eqn:Hu.
    + rewrite (connectStream_supported b s v url Hv Hsup Hu). by split.
    + rewrite (connectStream_throws b s v Hv Hsup Hu). by split.
  - destruct Hcan as [|Hnat]; [congruence|].
    by destruct (connectStream_native b s v Hv Hsup Hnat)
      as (? & ? & _).
Qed.

Lemma render_binds_surface (e : nat) (u : option string) (s : State) :
  ∃ v, videoRef (cleanup (render (Some e) u s)) = Some v.
Proof.
  unfold cleanup, render.
  destruct s as [e0 u0 [v|] [h|] p st er vol vs es cs]; cbn; by eexists.
Qed.

(** C3 (as the code has it). The test for the stream URL is in the
    auto-connect effect: when the URL is absent (undefined or empty)
    the effect does not run connect and nothing changes, neither the
    session state, nor the error descriptor, nor the engine
    reference.  With a rendering surface bound, connect from any
    state ends in state connecting with the error descriptor cleared
    provided hls.js is supported or the surface plays HLS natively;
    so selecting an event that has a non-empty URL drives the
    controller into connecting within that one update. *)
Theorem connect_guard_and_entry :
  (∀ s, truthy (streamUrl s) = false → effect b s = s) ∧
  (∀ s v, videoRef s = Some v → can_stream b →
     status (connectStream b s) = Connecting ∧
     error (connectStream b s) = None) ∧
  (∀ s e u, deps_changed (Some e) u s = true → truthy u = true →
     can_stream b → status (update b (Some e) u s) = Connecting).
Proof.
  split; [|split].
  - intros s Hu. unfold effect. rewrite Hu.
    by rewrite andb_false_r.
  - apply connectStream_status.
  - intros s e u Hd Hu Hcan. unfold update. rewrite Hd.
    pose proof (render_fields (Some e) u s) as (He & Hu' & _).
    pose proof (cleanup_fields (render (Some e) u s)) as
      (He' & Hu'' & _).
    cbn zeta in *. unfold effect. rewrite He', Hu'', He, Hu', Hu. cbn.
    destruct (render_binds_surface e u s) as [v Hv].
    by destruct (connectStream_status _ v Hv Hcan).
Qed.

(** C2 (as the code has it). In every state of the component the
    effect cleanup (run when the selection changes or the view is
    destroyed) destroys the engine instance held in the engine
    reference and clears the reference, so that no instance that was
    given a source stays live; it leaves the session state, the
    playing flag and the error descriptor as they were.  The
    disconnect operation does the same to the engine and also resets
    the session state to disconnected, with the playing flag off and
    the error descriptor cleared. *)
Theorem teardown_releases_engine (s : State) :
  reachable b s →
  (hlsRef (cleanup s) = None ∧
   (∀ h, hlsRef s = Some h → released h (cleanup s)) ∧
   no_stream_live (cleanup s) ∧
   status (cleanup s) = status s ∧
   isPlaying (cleanup s) = isPlaying s ∧
   error (cleanup s) = error s) ∧
  (hlsRef (disconnectStream s) = None ∧
   (∀ h, hlsRef s = Some h → released h (disconnectStream s)) ∧
   no_stream_live (disconnectStream s) ∧
   status (disconnectStream s) = Disconnected ∧
   isPlaying (disconnectStream s) = false ∧
   error (disconnectStream s) = None).
Proof.
  intros HI%reachable_inv. split.
  - pose proof (cleanup_fields s) as
      (_ & _ & _ & _ & Href & Hst & Hp & Her & _).
    split; [done|]. split; [|split; [by apply cleanup_no_stream|done]].
    intros h Hh. apply (released_after_destroy s); [done..|].
    by rewrite cleanup_engines, Hh.
  - pose proof (disconnectStream_fields s) as
      (Hst & Hp & Her & Href & _).
    split; [done|].
    split; [|split; [by apply disconnectStream_no_stream|done]].
    intros h Hh. apply (released_after_destroy s); [done..|].
    by rewrite disconnectStream_engines, Hh.
Qed.

(** C7. Changing the volume to a value of [0, 1] makes that value,
    exactly, the volume of the bound rendering surface (0.5 for 0.5).
    A value outside [0, 1] is rejected: the surface refuses it and
    keeps the volume it had.  Either way the surface's volume lies in
    [0, 1] afterwards, and the session state, the error descriptor,
    the playing flag and the engine are untouched.  (The volume cell
    of the component takes the value in both cases.) *)
Theorem volume_change_respects_range (s : State) :
  reachable b s →
  (present (videoRef s) = true →
   surface_volume (handleVolumeChange (1 # 2) s) = Some (1 # 2)) ∧
  ∀ x, let s' := handleVolumeChange x s in
    (in_unit_interval x → present (videoRef s) = true →
     surface_volume s' = Some x) ∧
    (¬ in_unit_interval x →
     videos s' = videos s ∧ surface_volume s' = surface_volume s) ∧
    (∀ y, surface_volume s' = Some y → in_unit_interval y) ∧
    volume s' = x ∧
    status s' = status s ∧ error s' = error s ∧
    isPlaying s' = isPlaying s ∧ hlsRef s' = hlsRef s ∧
    engines s' = engines s.
Proof.
  intros HI%reachable_inv.
  assert (∀ x, in_unit_interval x → present (videoRef s) = true →
               surface_volume (handleVolumeChange x s) = Some x) as Happly.
  { intros x Hx Hp.
    pose proof (handleVolumeChange_fields x s) as
      (_ & _ & Hv & _ & _ & _ & _ & _ & _ & _ & Hvs).
    cbn zeta in *. unfold surface_volume. rewrite Hv, Hvs.
    destruct (videoRef s) as [v|] eqn:Hv'; [|discriminate].
    destruct (inv_surface_valid s HI v Hv') as [el Hel]. rewrite Hel.
    destruct (Video.set_volume x el) as [el'|] eqn:Hset.
    - destruct (set_volume_Some x el el' Hset) as (_ & Hvol & _).
      rewrite list_lookup_insert_eq by (by eapply lookup_lt_Some).
      cbn. by rewrite Hvol.
    - by apply set_volume_None in Hset. }
  split.
  { apply Happly. split; discriminate. }
  intros x.
  pose proof (handleVolumeChange_fields x s) as
    (_ & _ & Hv & Hh & Hp & Hst & Her & Hvol & Heng & _ & Hvs).
  cbn zeta in *. split; [by apply Happly|]. split; [|split].
  - intros Hx.
    assert (videos (handleVolumeChange x s) = videos s) as Hsame.
    { rewrite Hvs. destruct (videoRef s) as [v|]; [|done].
      destruct (videos s !! v) as [el|]; [|done].
      destruct (Video.set_volume x el) as [el'|] eqn:Hset; [|done].
      by destruct (set_volume_Some x el el' Hset) as [Hin _]. }
    split; [done|]. unfold surface_volume. by rewrite Hv, Hsame.
  - intros y. unfold surface_volume.
    destruct (videoRef (handleVolumeChange x s)) as [v|]; [|done].
    destruct (videos (handleVolumeChange x s) !! v) as [el|] eqn:Hel;
      [|done].
    intros [= <-].
    pose proof (inv_volume _ (handleVolumeChange_inv x s HI)) as Hall.
    rewrite Forall_lookup in Hall. exact (Hall v el Hel).
  - done.
Qed.

End Lifecycle.

(* ================================================================== *)
(** ** Concrete runs *)
(* ================================================================== *)

Section Runs.
Import StreamPlayer Examples.

Lemma idle_reachable (b : Browser) : reachable b (idle b).
Proof. apply reachable_mount. Qed.

Lemma selected_reachable (b : Browser) : reachable b (selected b).
Proof. apply reachable_step; [apply idle_reachable|reflexivity]. Qed.

Lemma selected_no_url_reachable (b : Browser) :
  reachable b (selected_no_url b).
Proof. apply reachable_step; [apply idle_reachable|reflexivity]. Qed.

Lemma playing_reachable : reachable chrome playing.
Proof. apply reachable_step; [apply selected_reachable|reflexivity]. Qed.

Lemma crashed_reachable : reachable chrome crashed.
Proof. apply reachable_step; [apply selected_reachable|reflexivity]. Qed.

Lemma reconnected_reachable : reachable chrome reconnected.
Proof.
  apply reachable_step; [|reflexivity].
  apply reachable_step; [apply selected_reachable|reflexivity].
Qed.

(** The scenario of the specification: select the event, simulate
    manifest-parsed; the state becomes connected and play() is
    invoked once. *)
Example scenario_manifest_parsed :
  status playing = Connected ∧ isPlaying playing = true ∧
  play_calls (calls playing) = [VideoPlay 0] ∧
  engine_calls (calls playing)
  = [HlsOn 0 "hlsError"; HlsOn 0 "hlsManifestParsed";
     HlsAttachMedia 0 0; HlsLoadSource 0 url; HlsNew 0].
Proof. repeat split. Qed.

(** The scenario of the specification: a fatal network error while
    connecting; startLoad is invoked once and the engine is not
    released. *)
Example scenario_network_error :
  let s := step chrome (HlsEmit 0 (EngineError network_error))
             (selected chrome) in
  status s = Error ∧
  error s = Some "networkError: manifestLoadError" ∧
  engine_calls (calls s)
  = HlsStartLoad 0 :: engine_calls (calls (selected chrome)) ∧
  (Hls.destroyed <$> engines s !! 0) = Some false.
Proof. repeat split. Qed.

(** A fatal media error while playing: recoverMediaError is invoked
    once, the engine is not released and the playing flag is kept. *)
Example scenario_media_error :
  let s := step chrome (HlsEmit 0 (EngineError media_error)) playing in
  status s = Error ∧
  error s = Some "mediaError: bufferStalledError" ∧
  isPlaying s = true ∧
  engine_calls (calls s)
  = HlsRecoverMediaError 0 :: engine_calls (calls playing) ∧
  (Hls.destroyed <$> engines s !! 0) = Some false.
Proof. repeat split. Qed.

(** The instances live after a history of calls. *)
Example live_after_example :
  live_after [HlsNew 1; HlsDestroy 0; HlsLoadSource 0 url; HlsNew 0] = [1].
Proof. reflexivity. Qed.

Example single_engine_reconnected : single_engine (calls reconnected).
Proof.
  vm_compute. repeat split; first [lia | discriminate | reflexivity].
Qed.

Lemma stuck_reachable : reachable chrome stuck.
Proof.
  apply reachable_step; [apply selected_no_url_reachable|reflexivity].
Qed.

Lemma leaked_reachable : reachable chrome leaked.
Proof.
  apply reachable_step; [|reflexivity].
  apply reachable_step; [apply stuck_reachable|reflexivity].
Qed.

(** *** Where the code departs from the specification *)

(** C1, as stated, fails: after a fatal error of another category
    while connecting, the engine reference still holds the released
    instance, and the Disconnect button (no new connect) calls
    destroy on it a second time. *)
Lemma fatal_other_then_disconnect_destroys_again :
  reachable chrome (selected chrome) ∧
  status (selected chrome) = Connecting ∧
  enabled (HlsEmit 0 (EngineError other_error)) (selected chrome) = true ∧
  fatal other_error = true ∧
  crashed
  = step chrome (HlsEmit 0 (EngineError other_error)) (selected chrome) ∧
  hlsRef crashed = Some 0 ∧
  engine_calls (calls crashed)
  = [HlsDestroy 0; HlsOn 0 "hlsError"; HlsOn 0 "hlsManifestParsed";
     HlsAttachMedia 0 0; HlsLoadSource 0 url; HlsNew 0] ∧
  run_without_connect chrome crashed (step chrome ClickDisconnect crashed) ∧
  engine_calls (calls (step chrome ClickDisconnect crashed))
  = [HlsDestroy 0; HlsDestroy 0; HlsOn 0 "hlsError";
     HlsOn 0 "hlsManifestParsed"; HlsAttachMedia 0 0;
     HlsLoadSource 0 url; HlsNew 0].
Proof.
  split; [apply selected_reachable|]. repeat split.
  apply (rwc_step chrome ClickDisconnect); [reflexivity..|].
  apply rwc_refl.
Qed.

(** C2, as stated, fails: while the stream is playing, the cleanup
    (on unmount, or when an event without a stream URL is selected)
    releases the engine and clears the reference but leaves the
    session state connected and the playing flag set. *)
Lemma cleanup_keeps_status :
  reachable chrome playing ∧
  status playing = Connected ∧
  status (unmount playing) = Connected ∧
  isPlaying (unmount playing) = true ∧
  hlsRef (unmount playing) = None ∧
  status (step chrome (SetProps (Some 1) None) playing) = Connected ∧
  isPlaying (step chrome (SetProps (Some 1) None) playing) = true ∧
  hlsRef (step chrome (SetProps (Some 1) None) playing) = None ∧
  (Hls.destroyed
     <$> engines (step chrome (SetProps (Some 1) None) playing) !! 0)
  = Some true.
Proof. split; [apply playing_reachable|]. repeat split. Qed.

(** C3, as stated, fails twice.  With an event selected that has no
    stream URL, the Connect button runs connect with the absent URL:
    the state moves to connecting and an engine instance is created,
    on which [loadSource] is called (and throws, which leaves the
    engine reference empty).  And in a browser with neither hls.js nor
    native HLS, selecting an event with a URL ends in state error, not
    connecting. *)
Lemma connect_without_url_or_support :
  (reachable chrome (selected_no_url chrome) ∧
   streamUrl (selected_no_url chrome) = None ∧
   status (selected_no_url chrome) = Disconnected ∧
   hlsRef (selected_no_url chrome) = None ∧
   enabled ClickConnect (selected_no_url chrome) = true ∧
   status (step chrome ClickConnect (selected_no_url chrome))
   = Connecting ∧
   hlsRef (step chrome ClickConnect (selected_no_url chrome)) = None ∧
   engines (step chrome ClickConnect (selected_no_url chrome))
   = [Hls.fresh] ∧
   engine_calls (calls (step chrome ClickConnect (selected_no_url chrome)))
   = [HlsLoadSource 0 None; HlsNew 0]) ∧
  (status (idle legacy) = Disconnected ∧
   truthy url = true ∧
   videoRef (step legacy (SetProps (Some 0) url) (idle legacy)) = Some 0 ∧
   status (step legacy (SetProps (Some 0) url) (idle legacy)) = Error).
Proof.
  split; [split; [apply selected_no_url_reachable|]|]; repeat split.
Qed.

(** C4, as stated, fails.  With hls.js supported and an event
    selected that has no stream URL, the Connect button creates an
    engine instance and calls [loadSource] on it, which throws before
    the instance is stored in the engine reference.  Disconnect and
    Connect again leave a second one: two instances are live at once,
    neither in the engine reference, and whatever the component does
    from there on, both stay as they are, live: neither the effect
    cleanup nor a disconnect releases them. *)
Theorem connect_without_url_leaks_engines :
  reachable chrome leaked ∧
  streamUrl leaked = None ∧
  leaked
  = (idle chrome |> step chrome (SetProps (Some 0) None)
                 |> step chrome ClickConnect
                 |> step chrome ClickDisconnect
                 |> step chrome ClickConnect) ∧
  status leaked = Connecting ∧ hlsRef leaked = None ∧
  engines leaked = [Hls.fresh; Hls.fresh] ∧
  live_engines leaked = [0; 1] ∧
  engine_calls (calls leaked)
  = [HlsLoadSource 1 None; HlsNew 1; HlsLoadSource 0 None; HlsNew 0] ∧
  live_after (calls leaked) = [1; 0] ∧
  ¬ single_engine (calls leaked) ∧
  live_engines (unmount leaked) = [0; 1] ∧
  (∀ s, run chrome leaked s →
     engines s !! 0 = Some Hls.fresh ∧ engines s !! 1 = Some Hls.fresh).
Proof.
  split; [apply leaked_reachable|]. repeat split.
  - intros Hs. vm_compute in Hs. destruct Hs as (_ & Hlen & _). lia.
  - by apply (unloaded_instance_kept chrome leaked s 0 Hls.fresh);
      [|apply leaked_reachable|..].
  - by apply (unloaded_instance_kept chrome leaked s 1 Hls.fresh);
      [|apply leaked_reachable|..].
Qed.

(** The surface refuses the value 1.5 and keeps its volume; the volume
    cell of the component takes it.  (The slider cannot produce it.) *)
Example volume_out_of_range_rejected :
  ¬ in_unit_interval (3 # 2) ∧
  volume (handleVolumeChange (3 # 2) playing) = 3 # 2 ∧
  calls (handleVolumeChange (3 # 2) playing)
  = VideoSetVolume 0 (3 # 2) :: calls playing ∧
  surface_volume (handleVolumeChange (3 # 2) playing) = Some 1%Q ∧
  enabled (ChangeVolume (3 # 2)) playing = false.
Proof.
  split; [|repeat split].
  intros [_ Hhi]. by apply Hhi.
Qed.

(** *** The theorems at concrete states *)

Lemma fatal_error_recovery_witness :
  reachable chrome (selected chrome) ∧
  (status (selected chrome) = Connecting ∨
   status (selected chrome) = Connected) ∧
  enabled (HlsEmit 0 (EngineError other_error)) (selected chrome) = true ∧
  fatal other_error = true ∧
  status crashed = Error ∧
  error crashed = Some "otherError: internalException" ∧
  hlsRef crashed = Some 0.
Proof.
  split; [apply selected_reachable|].
  split; [left; reflexivity|].
  split; [reflexivity|]. split; [reflexivity|].
  destruct (fatal_error_recovery chrome (selected chrome) 0 other_error)
    as (Hst & Her & Href & _).
  - apply selected_reachable.
  - left. reflexivity.
  - reflexivity.
  - reflexivity.
  - split; [exact Hst|]. split; [exact Her|exact Href].
Defined.

Lemma teardown_releases_engine_witness :
  reachable chrome playing ∧
  hlsRef playing = Some 0 ∧
  hlsRef (cleanup playing) = None ∧
  released 0 (cleanup playing) ∧
  no_stream_live (cleanup playing) ∧
  status (cleanup playing) = status playing ∧
  released 0 (disconnectStream playing) ∧
  status (disconnectStream playing) = Disconnected.
Proof.
  split; [apply playing_reachable|]. split; [reflexivity|].
  destruct (teardown_releases_engine chrome playing playing_reachable)
    as ((Href & Hrel & Hno & Hst & _) & (_ & Hrel' & _ & Hd & _)).
  split; [exact Href|]. split; [exact (Hrel 0 eq_refl)|].
  split; [exact Hno|]. split; [exact Hst|].
  split; [exact (Hrel' 0 eq_refl)|exact Hd].
Defined.

Lemma connect_guard_and_entry_witness :
  (truthy (streamUrl (selected_no_url chrome)) = false ∧
   effect chrome (selected_no_url chrome) = selected_no_url chrome) ∧
  (videoRef (selected_no_url safari) = Some 0 ∧ can_stream safari ∧
   status (connectStream safari (selected_no_url safari)) = Connecting) ∧
  (deps_changed (Some 0) url (idle chrome) = true ∧
   truthy url = true ∧ can_stream chrome ∧
   status (update chrome (Some 0) url (idle chrome)) = Connecting).
Proof.
  split; [|split].
  - split; [reflexivity|].
    apply (proj1 (connect_guard_and_entry chrome)). reflexivity.
  - split; [reflexivity|]. split; [right; reflexivity|].
    apply (proj1 (proj2 (connect_guard_and_entry safari)) _ 0);
      [reflexivity|right; reflexivity].
  - split; [reflexivity|]. split; [reflexivity|].
    split; [left; reflexivity|].
    apply (proj2 (proj2 (connect_guard_and_entry chrome)));
      [reflexivity|reflexivity|left; reflexivity].
Defined.

Lemma connect_without_url_leaks_engines_witness :
  run chrome leaked
    (leaked |> step chrome ClickDisconnect
            |> step chrome (SetProps (Some 1) url)) ∧
  live_engines
    (leaked |> step chrome ClickDisconnect
            |> step chrome (SetProps (Some 1) url))
  = [0; 1; 2] ∧
  engines (leaked |> step chrome ClickDisconnect
                  |> step chrome (SetProps (Some 1) url)) !! 0
  = Some Hls.fresh ∧
  engines (leaked |> step chrome ClickDisconnect
                  |> step chrome (SetProps (Some 1) url)) !! 1
  = Some Hls.fresh.
Proof.
  assert (run chrome leaked
            (leaked |> step chrome ClickDisconnect
                    |> step chrome (SetProps (Some 1) url))) as Hrun.
  { apply (run_step chrome ClickDisconnect); [reflexivity|].
    apply (run_step chrome (SetProps (Some 1) url)); [reflexivity|].
    apply run_refl. }
  split; [exact Hrun|]. split; [reflexivity|].
  exact (proj2 (proj2 (proj2 (proj2 (proj2 (proj2 (proj2 (proj2 (proj2
           (proj2 (proj2 connect_without_url_leaks_engines))))))))))
           _ Hrun).
Defined.

Lemma manifest_parsed_connects_and_plays_witness :
  reachable chrome (selected chrome) ∧
  status (selected chrome) = Connecting ∧
  enabled (HlsEmit 0 ManifestParsed) (selected chrome) = true ∧
  status playing = Connected ∧ isPlaying playing = true ∧
  ∃ v, videoRef (selected chrome) = Some v ∧
       calls playing = VideoPlay v :: calls (selected chrome).
Proof.
  split; [apply selected_reachable|].
  split; [reflexivity|]. split; [reflexivity|].
  apply (manifest_parsed_connects_and_plays chrome (selected chrome) 0).
  - apply selected_reachable.
  - reflexivity.
  - reflexivity.
Defined.

Lemma volume_change_respects_range_witness :
  reachable chrome playing ∧
  present (videoRef playing) = true ∧
  in_unit_interval (1 # 4) ∧ ¬ in_unit_interval (3 # 2) ∧
  surface_volume (handleVolumeChange (1 # 2) playing) = Some (1 # 2) ∧
  surface_volume (handleVolumeChange (1 # 4) playing) = Some (1 # 4) ∧
  surface_volume (handleVolumeChange (3 # 2) playing)
  = surface_volume playing ∧
  status (handleVolumeChange (3 # 2) playing) = status playing.
Proof.
  assert (in_unit_interval (1 # 4)) as Hin by (split; discriminate).
  assert (¬ in_unit_interval (3 # 2)) as Hout
    by (intros [_ Hhi]; by apply Hhi).
  split; [apply playing_reachable|]. split; [reflexivity|].
  split; [exact Hin|]. split; [exact Hout|].
  destruct (volume_change_respects_range chrome playing playing_reachable)
    as (Hhalf & Hall).
  split; [exact (Hhalf eq_refl)|].
  split; [exact (proj1 (Hall (1 # 4)) Hin eq_refl)|].
  destruct (Hall (3 # 2)) as (_ & Hrej & _ & _ & Hst & _).
  split; [exact (proj2 (Hrej Hout))|exact Hst].
Defined.

Lemma connect_without_surface_noop_witness :
  videoRef (idle chrome) = None ∧
  connectStream chrome (idle chrome) = idle chrome.
Proof.
  split; [reflexivity|].
  apply (connect_without_surface_noop chrome (idle chrome)).
  reflexivity.
Defined.

Lemma connect_unsupported_error_witness :
  videoRef (step legacy ClickDisconnect (selected legacy)) = Some 0 ∧
  isSupported legacy = false ∧
  truthy (Some (canPlayType legacy HLS_MIME)) = false ∧
  status (step legacy ClickDisconnect (selected legacy)) = Disconnected ∧
  status (connectStream legacy
            (step legacy ClickDisconnect (selected legacy))) = Error ∧
  error (connectStream legacy
           (step legacy ClickDisconnect (selected legacy)))
  = Some "HLS is not supported in this browser" ∧
  engines (connectStream legacy
             (step legacy ClickDisconnect (selected legacy))) = [].
Proof.
  split; [reflexivity|]. split; [reflexivity|].
  split; [reflexivity|]. split; [reflexivity|].
  destruct (connect_unsupported_error legacy
              (step legacy ClickDisconnect (selected legacy)) 0)
    as (Hst & Her & Heng & _).
  - reflexivity.
  - reflexivity.
  - reflexivity.
  - split; [exact Hst|]. split; [exact Her|exact Heng].
Defined.

End Runs.

(* ================================================================== *)
(** ** The event list: runs of fetches and the rendered view *)
(* ================================================================== *)

Section EventListMore.
Import EventList.

Lemma fetchEvents_then (r : Fetch) (s : State) (evs : list Event) :
  try_block r = inr evs →
  fetchEvents r s = {| events := evs; loading := false; error := None |}.
Proof. unfold fetchEvents. intros ->. reflexivity. Qed.


Lemma run_fetches_snoc (rs : list Fetch) (r : Fetch) (s : State) :
  run_fetches (rs ++ [r]) s = fetchEvents r (run_fetches rs s).
Proof. unfold run_fetches. by rewrite fold_left_app. Qed.

Lemma response_events_failed (r : Fetch) :
  response_events r = None ↔ failed r = true.
Proof.
  unfold response_events, failed. by destruct (try_block r).
Qed.

(** X2. After any run of fetches the list held is the one of the last
    fetch that succeeded, and the list held before the run if none
    did: responses are never merged and failures never touch the
    list. *)
Theorem run_fetches_last_success (rs : list Fetch) (s : State) :
  events (run_fetches rs s) = default (events s) (last_success rs).
Proof.
  induction rs as [|r rs IH] using rev_ind; [done|].
  rewrite run_fetches_snoc. unfold last_success.
  rewrite omap_app.
  assert (omap response_events [r]
          = match response_events r with
            | Some evs => [evs]
            | None => []
            end) as -> by (cbn; by destruct (response_events r)).
  unfold response_events at 2.
  destruct (try_block r) as [err|evs] eqn:Htry.
  - rewrite (fetchEvents_catch r _ err Htry), app_nil_r. exact IH.
  - by rewrite (fetchEvents_then r _ evs Htry), last_snoc.
Qed.

(** *** Fetches that overlap *)

Lemma fetchEvents_phases (r : Fetch) (s : State) :
  fetchEvents r s = fetch_finish r (fetch_start s).
Proof. reflexivity. Qed.

(** A run of fetches that do not overlap. *)
Lemma run_fetches_phases (rs : list Fetch) (s : State) :
  run_fetches rs s = run_phases (flat_map (λ r, [Start; Settle r]) rs) s.
Proof.
  revert s. induction rs as [|r rs IH]; intros s; [done|].
  exact (IH (fetchEvents r s)).
Qed.

Lemma run_phases_snoc (ps : list Phase) (p : Phase) (s : State) :
  run_phases (ps ++ [p]) s = run_phase (run_phases ps s) p.
Proof. unfold run_phases. by rewrite fold_left_app. Qed.

Lemma settled_snoc (ps : list Phase) (r : Fetch) :
  settled (ps ++ [Settle r]) = settled ps ++ [r].
Proof. unfold settled. by rewrite omap_app. Qed.

Lemma last_failure_snoc (rs : list Fetch) (r : Fetch) :
  last_failure (rs ++ [r])
  = match try_block r with
    | inl err => Some (message err)
    | inr _ => last_failure rs
    end.
Proof.
  unfold last_failure. rewrite omap_app.
  assert (omap failure_message [r]
          = match try_block r with
            | inl err => [message err]
            | inr _ => []
            end) as ->.
  { cbn. unfold failure_message. by destruct (try_block r). }
  destruct (try_block r); [by rewrite last_snoc|by rewrite app_nil_r].
Qed.

Lemma last_success_snoc (rs : list Fetch) (r : Fetch) :
  last_success (rs ++ [r])
  = match try_block r with
    | inl _ => last_success rs
    | inr evs => Some evs
    end.
Proof.
  unfold last_success. rewrite omap_app.
  assert (omap response_events [r]
          = match try_block r with
            | inl _ => []
            | inr evs => [evs]
            end) as ->.
  { cbn. unfold response_events. by destruct (try_block r). }
  destruct (try_block r); [by rewrite app_nil_r|by rewrite last_snoc].
Qed.

(** The list held goes by the order in which the fetches settle,
    however they overlap. *)
Lemma run_phases_events (ps : list Phase) (s : State) :
  events (run_phases ps s) = default (events s) (last_success (settled ps)).
Proof.
  induction ps as [|p ps IH] using rev_ind; [done|].
  rewrite run_phases_snoc. destruct p as [|r]; cbn.
  - unfold settled. rewrite omap_app, app_nil_r. exact IH.
  - rewrite settled_snoc, last_success_snoc. unfold fetch_finish.
    destruct (try_block r); [exact IH|done].
Qed.

(** X3. Fetches may overlap.  The list held is the one of the fetch
    that succeeded last, in the order in which the fetches settled.
    The error shown is the message of the last fetch that failed since
    the most recent start of a fetch, and none if no fetch failed
    since: a start clears the error, a success does not.  The loading
    flag is on from the most recent start until the next fetch
    settles, whichever fetch that is. *)
Theorem run_phases_last_error (before after : list Phase) (s : State) :
  Forall (λ p, p ≠ Start) after →
  let s' := run_phases (before ++ Start :: after) s in
  error s' = last_failure (settled after) ∧
  loading s' = match after with [] => true | _ => false end ∧
  events s' = default (events s) (last_success (settled (before ++ after))).
Proof.
  intros Hafter. cbn zeta. split; [|split].
  - induction after as [|p after IH] using rev_ind.
    + by rewrite run_phases_snoc.
    + apply Forall_app in Hafter as [Hafter Hp].
      apply (proj1 (Forall_singleton _ _)) in Hp.
      destruct p as [|r]; [by destruct Hp|].
      change (before ++ Start :: after ++ [Settle r])
        with (before ++ (Start :: after) ++ [Settle r]).
      rewrite (assoc (++)), run_phases_snoc, settled_snoc.
      rewrite last_failure_snoc. cbn. unfold fetch_finish.
      destruct (try_block r); [done|]. by apply IH.
  - destruct after as [|p after _] using rev_ind.
    + by rewrite run_phases_snoc.
    + apply Forall_app in Hafter as [_ Hp].
      apply (proj1 (Forall_singleton _ _)) in Hp.
      destruct p as [|r]; [by destruct Hp|].
      change (before ++ Start :: after ++ [Settle r])
        with (before ++ (Start :: after) ++ [Settle r]).
      rewrite (assoc (++)), run_phases_snoc. cbn. unfold fetch_finish.
      destruct (try_block r), after; done.
  - rewrite run_phases_events. unfold settled.
    by rewrite !omap_app.
Qed.

Lemma length_zero_eqb {A} (l : list A) :
  l ≠ [] → (length l =? 0) = false.
Proof. by destruct l. Qed.

(** X4. Once the list is not empty, a failed refresh changes nothing of
    what is rendered but the Refresh button going back to enabled: the
    same cards and counter stay, and the error message is shown
    nowhere (the error page is only rendered for an empty list). *)
Theorem failed_refresh_keeps_cards (sel : option Event) (r : Fetch)
    (s : State) :
  failed r = true → events s ≠ [] →
  render sel (fetchEvents r s)
  = Listing
      (pretty (length (events s)) +:+ " event"
       +:+ (if negb (length (events s) =? 1) then "s" else ""))
      false "Refresh" (imap (card sel) (events s)).
Proof.
  unfold failed. destruct (try_block r) as [err|evs] eqn:Htry;
    [|discriminate].
  intros _ Hne. rewrite (fetchEvents_catch r s err Htry).
  unfold render. cbn. rewrite (length_zero_eqb _ Hne).
  by rewrite andb_false_r.
Qed.

(** X5. When no list is held, a failed fetch renders the error page
    with the message of the error, except that an error with an empty
    message is falsy and renders the empty list instead, as if the
    fetch had returned no event. *)
Theorem failed_first_fetch_view (sel : option Event) (r : Fetch)
    (s : State) (err : JsError) :
  events s = [] → try_block r = inl err →
  render sel (fetchEvents r s)
  = if String.eqb (message err) ""
    then Listing "0 events" false "Refresh" []
    else ErrorPage ("Failed to load events: " +:+ message err).
Proof.
  intros Hev Htry. rewrite (fetchEvents_catch r s err Htry).
  unfold render. cbn. rewrite Hev. cbn.
  by destruct (String.eqb (message err) "").
Qed.

(** *** The cards *)

Lemma string_app_assoc (a b c : string) :
  (a +:+ b) +:+ c = a +:+ (b +:+ c).
Proof.
  induction a as [|x a IH]; [done|].
  change (String x ((a +:+ b) +:+ c) = String x (a +:+ (b +:+ c))).
  by rewrite IH.
Qed.

(** A decimal numeral has no dash in it. *)
Lemma pretty_N_go_no_dash (x : N) (s : string) :
  (∀ a b, s ≠ a +:+ "-" +:+ b) →
  ∀ a b, pretty_N_go x s ≠ a +:+ "-" +:+ b.
Proof.
  revert s. induction (N.lt_wf_0 x) as [x _ IH]; intros s Hs.
  assert (x = 0 ∨ 0 < x)%N as [->|Hx] by lia.
  - by rewrite pretty_N_go_0.
  - rewrite pretty_N_go_step by done. apply IH; [by apply N.div_lt|].
    intros [|c a] b Heq; cbn in Heq.
    + injection Heq as Hc _. revert Hc.
      unfold pretty_N_char. by repeat case_match.
    + injection Heq as _ Heq. by apply (Hs a b).
Qed.

Lemma pretty_nat_no_dash (n : nat) (a b : string) :
  pretty n ≠ a +:+ "-" +:+ b.
Proof.
  unfold pretty, pretty_nat, pretty, pretty_N.
  case_decide.
  - by destruct a as [|c [|c' a']].
  - apply pretty_N_go_no_dash. by intros [|c a'] b'.
Qed.

(** What follows the last dash of a string is determined by it. *)
Lemma after_last_dash (a b d1 d2 : string) :
  (∀ x y, d1 ≠ x +:+ "-" +:+ y) → (∀ x y, d2 ≠ x +:+ "-" +:+ y) →
  a +:+ "-" +:+ d1 = b +:+ "-" +:+ d2 → d1 = d2.
Proof.
  intros H1 H2. revert b.
  induction a as [|c a IH]; intros [|c' b] Heq; cbn in Heq.
  - by injection Heq.
  - injection Heq as _ Heq. by destruct (H1 b d2).
  - injection Heq as _ Heq. by destruct (H2 a d1).
  - injection Heq as _ Heq. by apply (IH b).
Qed.

Lemma card_key_index (sel sel' : option Event) (i j : nat)
    (e e' : Event) :
  key (card sel i e) = key (card sel' j e') → i = j.
Proof.
  assert (∀ s k x,
            key (card s k x)
            = (Field_to_string (symbol x) +:+ "-"
               +:+ Field_to_string (eventDate x)) +:+ "-" +:+ pretty k)
    as Hkey.
  { intros s k x. unfold card, key.
    by rewrite (string_app_assoc (Field_to_string (symbol x))),
      (string_app_assoc "-"). }
  rewrite !Hkey.
  intros Heq%after_last_dash; try apply pretty_nat_no_dash.
  by apply (inj pretty) in Heq.
Qed.

(** X6. The React keys of the cards are pairwise distinct, whatever
    the events are: two cards for events with the same symbol and date,
    or whose symbols and dates contain dashes and digits, still differ
    by the index that ends the key. *)
Theorem card_keys_unique (sel : option Event) (evs : list Event) :
  NoDup (key <$> imap (card sel) evs).
Proof.
  apply NoDup_alt. intros i j k Hi Hj.
  rewrite list_lookup_fmap, list_lookup_imap in Hi, Hj.
  destruct (evs !! i) as [e|]; [|done].
  destruct (evs !! j) as [e'|]; [|done].
  cbn in Hi, Hj. injection Hi as Hi. injection Hj as Hj.
  apply (card_key_index sel sel i j e e'). cbn. congruence.
Qed.

Lemma Field_eqb_refl (x : Field) : Field_eqb x x = true.
Proof.
  destruct x as [| |[|]|n|s|r n]; cbn;
    by rewrite ?String.eqb_refl, ?Nat.eqb_refl.
Qed.

Lemma Field_eqb_undefined (x : Field) :
  Field_eqb Undefined x = true ↔ x = Undefined.
Proof. by destruct x. Qed.

(** X7. The grid has one card per event, in the order of the list, and
    a click on a card hands that card's own event to [onSelectEvent].
    The card just clicked carries the PLAYING badge; the badge goes by
    symbol and date, so it survives a refresh that returns the event
    again with the same symbol and date.  With no selection the badge
    is on exactly the cards of the events that have neither a symbol
    nor a date: the comparison is then between [undefined] and
    [undefined]. *)
Theorem cards_follow_events (evs : list Event) :
  (∀ sel, card_event <$> imap (card sel) evs = evs) ∧
  (∀ i e, evs !! i = Some e →
     selected <$> imap (card (Some e)) evs !! i = Some true) ∧
  (∀ sel e' i,
     symbol e' = symbol sel → eventDate e' = eventDate sel →
     evs !! i = Some e' →
     selected <$> imap (card (Some sel)) evs !! i = Some true) ∧
  Forall (λ c, selected c = true ↔
               symbol (card_event c) = Undefined ∧
               eventDate (card_event c) = Undefined)
    (imap (card None) evs).
Proof.
  assert (∀ sel e' i,
            symbol e' = symbol sel → eventDate e' = eventDate sel →
            evs !! i = Some e' →
            selected <$> imap (card (Some sel)) evs !! i = Some true)
    as Hbadge.
  { intros sel e' i Hs Hd He. rewrite list_lookup_imap, He. cbn.
    unfold isSelected. cbn. by rewrite Hs, Hd, !Field_eqb_refl. }
  split; [|split; [|split]].
  - intros sel. apply list_eq. intros i.
    rewrite list_lookup_fmap, list_lookup_imap.
    by destruct (evs !! i).
  - intros i e He. by apply (Hbadge e e i).
  - exact Hbadge.
  - apply Forall_lookup. intros i c.
    rewrite list_lookup_imap. destruct (evs !! i) as [e|]; [|done].
    intros [= <-].
    change (Field_eqb Undefined (symbol e)
            && Field_eqb Undefined (eventDate e) = true
            ↔ symbol e = Undefined ∧ eventDate e = Undefined).
    by rewrite andb_true_iff, !Field_eqb_undefined.
Qed.

End EventListMore.

(* ================================================================== *)
(** ** The player: the rest of the component *)
(* ================================================================== *)

Section PlayerMore.
Import StreamPlayer.
Variable b : Browser.

(** X8. The colours of the status dot tell the four states apart. *)
Theorem status_colours_distinct (x y : Status) :
  getStatusColor x = getStatusColor y → x = y.
Proof. by destruct x, y. Qed.

(** *** How the state cells go together *)

Local Ltac coherent :=
  split; cbn; intros; first [discriminate | done | by eexists | idtac].

Lemma run_listener_coherent (d : option ErrorData) (l : Listener)
    (s : State) :
  Coherent s → Coherent (run_listener d l s).
Proof.
  intros [H1 H2 H3]. destruct l as [v|h|v|]; cbn.
  - destruct s; coherent.
  - destruct d as [d|]; [|done]. unfold hls_error_handler.
    destruct (fatal d);
      [destruct (String.eqb (type d) Hls.NETWORK_ERROR);
       [|destruct (String.eqb (type d) Hls.MEDIA_ERROR)]|];
      destruct s; coherent; auto.
  - destruct s; coherent.
  - destruct s; coherent.
Qed.

Lemma run_listeners_coherent (d : option ErrorData) (ls : list Listener)
    (s : State) :
  Coherent s → Coherent (run_listeners d ls s).
Proof.
  unfold run_listeners. revert s.
  induction ls as [|l ls IH]; intros s HC; cbn; [done|].
  by apply IH, run_listener_coherent.
Qed.

Lemma connectStream_coherent (s : State) :
  Coherent s → Coherent (connectStream b s).
Proof.
  intros HC. unfold connectStream.
  destruct (videoRef s) as [v|] eqn:Hv; [|done].
  destruct (isSupported b);
    [|destruct (truthy (Some (canPlayType b HLS_MIME)))];
    destruct s as [e [url|] v0 h p st er vol vs es cs]; coherent.
Qed.

Lemma step_coherent (a : Action) (s : State) :
  Coherent s → enabled a s = true → Coherent (step b a s).
Proof.
  intros HC Hen. destruct a as [e u| | | |x|h ev|v ev]; cbn in *.
  - assert (Coherent (cleanup (render e u s)) ∧
            Coherent (render e u s)) as [HC1 HC2].
    { destruct HC as [H1 H2 H3]. unfold cleanup, render.
      split; destruct s as [e0 u0 [v|] [h|] p st er vol vs es cs], e;
        coherent; auto. }
    unfold update.
    destruct (deps_changed e u s); [|done].
    unfold effect.
    destruct (present (event (cleanup (render e u s)))
              && truthy (streamUrl (cleanup (render e u s)))); [|done].
    by apply connectStream_coherent.
  - by apply connectStream_coherent.
  - unfold disconnectStream.
    destruct s as [e u [v|] [h|] p st er vol vs es cs]; coherent.
  - apply andb_true_iff in Hen as [_ Hst%Status_eqb_eq].
    unfold togglePlayPause.
    destruct (videoRef s) as [v|] eqn:Hv; [|done].
    destruct (video_paused v s), s; cbn in Hst; subst; coherent.
  - destruct HC as [H1 H2 H3].
    pose proof (handleVolumeChange_fields x s) as
      (_ & _ & _ & _ & Hp & Hst & Her & _).
    cbn zeta in *. split; rewrite Hst, ?Hp, Her; auto.
  - unfold hls_emit. destruct (engines s !! h); [|done].
    destruct ev; by apply run_listeners_coherent.
  - unfold video_emit. destruct (videos s !! v); [|done].
    by apply run_listeners_coherent.
Qed.

Lemma mount_coherent (e : option nat) (u : option string) :
  Coherent (mount b e u).
Proof.
  unfold mount, effect.
  assert (Coherent (render e u initial)) as HC.
  { unfold render. destruct e; coherent. }
  destruct (present (event (render e u initial))
            && truthy (streamUrl (render e u initial))); [|done].
  by apply connectStream_coherent.
Qed.

(** X9. In every state of the component the cells agree: in state
    disconnected the playing flag is off, the error descriptor is
    cleared and the engine reference is empty; in state connecting the
    error descriptor is cleared; in state error an error descriptor is
    present. *)
Theorem session_coherent (s : State) :
  reachable b s →
  (status s = Disconnected →
     isPlaying s = false ∧ error s = None ∧ hlsRef s = None) ∧
  (status s = Connecting → error s = None) ∧
  (status s = Error → is_Some (error s)).
Proof.
  intros Hr.
  assert (Coherent s) as [H1 H2 H3].
  { induction Hr as [e u|a s Hr IH Hen]; [apply mount_coherent|].
    by apply step_coherent. }
  pose proof (reachable_inv b s Hr) as HI.
  split; [|done]. intros Hd. destruct (H1 Hd) as [Hp He].
  split; [done|]. split; [done|]. by apply HI.
Qed.

(** *** Engine events *)

(** X10. An error event that the engine does not mark fatal is logged
    to the console and nothing else: no cell, no reference and no
    object changes, and no call is issued on the engine or the
    surface. *)
Theorem nonfatal_error_ignored (s : State) (h : nat) (d : ErrorData) :
  reachable b s →
  enabled (HlsEmit h (EngineError d)) s = true →
  fatal d = false →
  let s' := step b (HlsEmit h (EngineError d)) s in
  same_session s' s ∧ calls s' = ConsoleError "HLS error:" :: calls s.
Proof.
  intros Hr Hen Hf. destruct (hls_emit_error b s h d Hr Hen) as [_ Heq].
  cbn. rewrite Heq. unfold hls_error_handler. rewrite Hf.
  unfold same_session. by destruct s.
Qed.

(** X11. Whatever error event the engine delivers, fatal or not, the
    handler leaves the rendering surface alone: no call is issued on
    the video element (it is neither paused nor is its source
    cleared), and the volume is kept; a fatal error of the network or
    media category also keeps the playing flag. *)
Theorem error_event_leaves_surface (s : State) (h : nat) (d : ErrorData) :
  reachable b s →
  enabled (HlsEmit h (EngineError d)) s = true →
  let s' := step b (HlsEmit h (EngineError d)) s in
  videos s' = videos s ∧ videoRef s' = videoRef s ∧
  video_calls (calls s') = video_calls (calls s) ∧
  volume s' = volume s ∧
  (type d = Hls.NETWORK_ERROR ∨ type d = Hls.MEDIA_ERROR →
     isPlaying s' = isPlaying s).
Proof.
  intros Hr Hen. destruct (hls_emit_error b s h d Hr Hen) as [_ Heq].
  cbn. rewrite Heq. unfold hls_error_handler.
  destruct (fatal d);
    [destruct (String.eqb (type d) Hls.NETWORK_ERROR) eqn:Hn;
     [|destruct (String.eqb (type d) Hls.MEDIA_ERROR) eqn:Hm]|];
    destruct s; cbn; repeat split; try done.
  apply String.eqb_neq in Hn, Hm. by intros [|].
Qed.

(** X12. A manifest-parsed signal does not clear the error descriptor:
    when it follows a fatal network or media error that was recovered,
    the state is connected while the descriptor of that error stays
    (and stays displayed) until the next connect or disconnect.  The
    engine, its reference and the volume are untouched. *)
Theorem manifest_parsed_keeps_error (s : State) (h : nat) :
  reachable b s →
  enabled (HlsEmit h ManifestParsed) s = true →
  let s' := step b (HlsEmit h ManifestParsed) s in
  status s' = Connected ∧ error s' = error s ∧
  hlsRef s' = hlsRef s ∧ engines s' = engines s ∧ volume s' = volume s.
Proof.
  intros Hr Hen.
  destruct (hls_emit_manifest_parsed b s h Hr Hen) as (v & Hv & Heq).
  cbn. rewrite Heq. unfold manifest_parsed_handler. by destruct s.
Qed.

(** *** Changes of the selection *)

(** X13. A render that changes neither the event nor the stream URL
    does nothing: no cleanup, no connect, no call; the stream that is
    running is not restarted. *)
Theorem rerender_same_props_noop (s : State) :
  reachable b s → step b (SetProps (event s) (streamUrl s)) s = s.
Proof.
  intros HI%reachable_inv. cbn. unfold update.
  assert (deps_changed (event s) (streamUrl s) s = false) as Hd.
  { unfold deps_changed. by rewrite bool_decide_eq_true_2. }
  rewrite Hd. by apply render_unchanged.
Qed.

(** X14. Selecting another event (or the same event with another URL)
    that has a non-empty stream URL, in a browser that supports
    hls.js, switches the stream in that one update: the instance in
    the engine reference is destroyed first, then one new instance is
    created, loaded with the new URL, attached to the bound surface
    and stored in the reference; every other instance is destroyed or
    was never given a source.  The state is connecting with the error
    cleared; the playing flag is not reset and keeps the value it
    had. *)
Theorem switch_event_reconnects (s : State) (e : nat) (u : option string) :
  reachable b s →
  deps_changed (Some e) u s = true → truthy u = true →
  isSupported b = true →
  let s' := step b (SetProps (Some e) u) s in
  let n := length (engines s) in
  status s' = Connecting ∧ error s' = None ∧
  isPlaying s' = isPlaying s ∧ hlsRef s' = Some n ∧
  ∃ v, videoRef s' = Some v ∧
       engines s' !! n
       = Some {| Hls.destroyed := false; Hls.source := u;
                 Hls.media := Some v; Hls.listeners := wiring n v |} ∧
       (∀ k inst, engines s' !! k = Some inst → k ≠ n →
          Hls.destroyed inst = true ∨ Hls.source inst = None) ∧
       engine_calls (calls s')
       = [HlsOn n Hls.ERROR; HlsOn n Hls.MANIFEST_PARSED;
          HlsAttachMedia n v; HlsLoadSource n u; HlsNew n]
         ++ match hlsRef s with
            | Some h => [HlsDestroy h]
            | None => []
            end
         ++ engine_calls (calls s).
Proof.
  intros HI%reachable_inv Hd Hu Hsup. cbn zeta. cbn [step].
  unfold update. rewrite Hd.
  destruct u as [url|]; [|discriminate].
  destruct (cleanup_render_inv (Some e) (Some url) s HI) as (_ & _ & Hno).
  pose proof (render_fields (Some e) (Some url) s) as
    (He & Hu' & Href & Heng & Hcalls & _ & Hp & _).
  pose proof (cleanup_fields (render (Some e) (Some url) s)) as
    (He' & Hu'' & _ & _ & _ & _ & Hp' & _ & _ & Hcalls').
  pose proof (cleanup_engines (render (Some e) (Some url) s)) as Heng'.
  destruct (render_binds_surface e (Some url) s) as [v Hv].
  cbn zeta in *. unfold effect. rewrite He', Hu'', He, Hu', Hu.
  cbn [andb present].
  rewrite (connectStream_supported b _ v url Hv Hsup) by congruence.
  assert (length (engines (cleanup (render (Some e) (Some url) s)))
          = length (engines s)) as Hlen.
  { rewrite Heng', Href, Heng. destruct (hlsRef s); [|done].
    apply length_alter. }
  rewrite Hlen.
  cbn [status error isPlaying hlsRef videoRef engines calls].
  split; [done|]. split; [done|]. split; [congruence|]. split; [done|].
  exists v. split; [done|]. split; [|split].
  - rewrite lookup_app_r by lia. by rewrite Hlen, Nat.sub_diag.
  - intros k inst [Hl|[Hk Hl]]%lookup_app_Some Hne.
    + destruct (Hls.destroyed inst) eqn:Hdes; [by left|right].
      by apply (Hno k inst).
    + rewrite Hlen in Hk, Hl.
      destruct (k - length (engines s)) as [|m] eqn:Hm;
        [lia|by destruct m].
  - rewrite Hcalls', Href, Hcalls. by destruct (hlsRef s).
Qed.

(** *** Play and pause *)

(** X15. The play/pause button goes by the paused flag of the surface,
    whatever the playing flag says: a paused surface gets one play()
    call and the flag is set, a playing one gets one pause() call and
    the flag is cleared, so that afterwards the flag agrees with the
    surface.  The session state, the error descriptor, the engine and
    the volume are untouched. *)
Theorem toggle_follows_surface (s : State) (v : nat) (x : Video.t) :
  videoRef s = Some v → videos s !! v = Some x →
  let s' := togglePlayPause s in
  isPlaying s' = Video.paused x ∧
  video_paused v s' = negb (Video.paused x) ∧
  calls s'
  = (if Video.paused x then VideoPlay v else VideoPause v) :: calls s ∧
  status s' = status s ∧ error s' = error s ∧ hlsRef s' = hlsRef s ∧
  engines s' = engines s ∧ volume s' = volume s.
Proof.
  intros Hv Hx. unfold togglePlayPause, video_paused.
  rewrite Hv, Hx.
  destruct s as [e u v0 h p st er vol vs es cs]; cbn in *.
  destruct (Video.paused x) eqn:Hp; cbn;
    rewrite list_lookup_alter_eq, Hx; by repeat split.
Qed.

Lemma togglePlayPause_bound (s : State) (v : nat) (x : Video.t) :
  videoRef s = Some v → videos s !! v = Some x →
  togglePlayPause s
  = if Video.paused x
    then s |> video_play v |> setIsPlaying true
    else s |> video_pause v |> setIsPlaying false.
Proof.
  intros Hv Hx. unfold togglePlayPause, video_paused. by rewrite Hv, Hx.
Qed.

Lemma alter_restores {A} (f : A → A) (l : list A) (i : nat) (x : A) :
  l !! i = Some x → f x = x → alter f i l = l.
Proof.
  intros Hx Hf. apply list_eq. intros j.
  destruct (decide (i = j)) as [<-|Hne].
  - rewrite list_lookup_alter_eq, Hx. cbn. by rewrite Hf.
  - by rewrite list_lookup_alter_ne.
Qed.

(** X16. Two presses of the play/pause button leave the surface as it
    was; the playing flag ends as the opposite of the surface's paused
    flag, whether or not it agreed with the surface before. *)
Theorem toggle_twice (s : State) (v : nat) (x : Video.t) :
  videoRef s = Some v → videos s !! v = Some x →
  let s' := togglePlayPause (togglePlayPause s) in
  videos s' = videos s ∧ isPlaying s' = negb (Video.paused x) ∧
  calls s'
  = (if Video.paused x then [VideoPause v; VideoPlay v]
     else [VideoPlay v; VideoPause v]) ++ calls s.
Proof.
  intros Hv Hx. cbn zeta.
  rewrite (togglePlayPause_bound s v x Hv Hx).
  destruct (Video.paused x) eqn:Hp.
  - rewrite (togglePlayPause_bound _ v (Video.play x)).
    + destruct s as [e u v0 h p st er vol vs es cs]; cbn in *.
      split; [|done]. rewrite list_alter_alter_eq.
      apply (alter_restores _ _ _ x Hx). destruct x; cbn in *. by subst.
    + by destruct s.
    + destruct s; cbn in *. by rewrite list_lookup_alter_eq, Hx.
  - rewrite (togglePlayPause_bound _ v (Video.pause x)).
    + destruct s as [e u v0 h p st er vol vs es cs]; cbn in *.
      split; [|done]. rewrite list_alter_alter_eq.
      apply (alter_restores _ _ _ x Hx). destruct x; cbn in *. by subst.
    + by destruct s.
    + destruct s; cbn in *. by rewrite list_lookup_alter_eq, Hx.
Qed.

(** *** Native playback: the listeners on the video element *)

Lemma native_listeners_S (v k : nat) :
  native_listeners v (S k)
  = native_listeners v k
    ++ [("loadedmetadata", OnLoadedMetadata v); ("error", OnVideoError)].
Proof.
  unfold native_listeners.
  by rewrite replicate_S_end, concat_app.
Qed.

(** Code that adds no listener: the elements keep theirs and the trace
    gains no native connect. *)
Lemma native_preserved (s s' : State) :
  native_only s ∧ native_fresh s →
  length (videos s') = length (videos s) →
  (∀ v x', videos s' !! v = Some x' →
     ∃ x, videos s !! v = Some x ∧
          Video.listeners x' = Video.listeners x) →
  (∀ v, native_connects v (calls s') = native_connects v (calls s)) →
  native_only s' ∧ native_fresh s'.
Proof.
  intros [Hon Hfr] Hlen Hvs Hcalls. split.
  - intros v x' Hx'. destruct (Hvs v x' Hx') as (x & Hx & ->).
    rewrite Hcalls. by apply Hon.
  - intros v Hv. rewrite Hcalls. apply Hfr. by rewrite <- Hlen.
Qed.

Lemma lookup_alter_listeners (f : Video.t → Video.t) (i j : nat)
    (l : list Video.t) (x' : Video.t) :
  (∀ x, Video.listeners (f x) = Video.listeners x) →
  alter f i l !! j = Some x' →
  ∃ x, l !! j = Some x ∧ Video.listeners x' = Video.listeners x.
Proof.
  intros Hf Hl. destruct (decide (i = j)) as [<-|Hne].
  - rewrite list_lookup_alter_eq in Hl.
    destruct (l !! i) as [x|]; [|done]. injection Hl as <-.
    exists x. by rewrite Hf.
  - rewrite list_lookup_alter_ne in Hl by done. by exists x'.
Qed.

Local Ltac same_videos :=
  let v := fresh "v" in let x := fresh "x" in
  intros v x ?; by exists x.

Lemma run_listener_native (d : option ErrorData) (l : Listener)
    (s : State) :
  native_only s ∧ native_fresh s →
  native_only (run_listener d l s) ∧ native_fresh (run_listener d l s).
Proof.
  intros HN. destruct l as [v|h|v|]; cbn.
  - apply (native_preserved s); [done|..]; destruct s; cbn.
    + apply length_alter.
    + intros j x'. by apply lookup_alter_listeners.
    + done.
  - destruct d as [d|]; [|done]. unfold hls_error_handler.
    destruct (fatal d);
      [destruct (String.eqb (type d) Hls.NETWORK_ERROR);
       [|destruct (String.eqb (type d) Hls.MEDIA_ERROR)]|];
      (apply (native_preserved s); [done|..]; destruct s; cbn;
       [done|same_videos|done]).
  - apply (native_preserved s); [done|..]; destruct s; cbn.
    + apply length_alter.
    + intros j x'. by apply lookup_alter_listeners.
    + done.
  - apply (native_preserved s); [done|..]; destruct s; cbn;
      [done|same_videos|done].
Qed.

Lemma run_listeners_native (d : option ErrorData) (ls : list Listener)
    (s : State) :
  native_only s ∧ native_fresh s →
  native_only (run_listeners d ls s) ∧ native_fresh (run_listeners d ls s).
Proof.
  unfold run_listeners. revert s.
  induction ls as [|l ls IH]; intros s HN; cbn; [done|].
  by apply IH, run_listener_native.
Qed.

Lemma native_connects_other (v v' : nat) (ev : string) (cs : list Call) :
  v' ≠ v →
  native_connects v (VideoAddEventListener v' ev :: cs)
  = native_connects v cs.
Proof.
  intros Hne. unfold native_connects. cbn.
  apply Nat.eqb_neq in Hne. by rewrite Hne.
Qed.

Lemma native_connects_loadedmetadata (v : nat) (cs : list Call) :
  native_connects v (VideoAddEventListener v "loadedmetadata" :: cs)
  = S (native_connects v cs).
Proof. unfold native_connects. cbn. by rewrite Nat.eqb_refl. Qed.

Lemma native_connects_error (v v' : nat) (cs : list Call) :
  native_connects v (VideoAddEventListener v' "error" :: cs)
  = native_connects v cs.
Proof. unfold native_connects. cbn. by rewrite andb_false_r. Qed.

Lemma connectStream_native_inv (s : State) :
  Inv s → native_only s ∧ native_fresh s →
  native_only (connectStream b s) ∧ native_fresh (connectStream b s).
Proof.
  intros HI [Hon Hfr]. unfold connectStream.
  destruct (videoRef s) as [v|] eqn:Hv; [|done].
  destruct (inv_surface_valid s HI v Hv) as [x Hx].
  destruct (isSupported b) eqn:Hsup;
    [|destruct (truthy (Some (canPlayType b HLS_MIME)))].
  - apply (native_preserved s); [done|..];
      destruct s as [e [url|] v0 h p st er vol vs es cs]; cbn;
      try done; same_videos.
  - split.
    + intros j y Hy.
      destruct s as [e u v0 h p st er vol vs es cs];
        cbn -[native_connects native_listeners] in *.
      destruct (decide (j = v)) as [->|Hne].
      * rewrite !list_lookup_alter_eq, Hx in Hy. cbn in Hy.
        injection Hy as <-. cbn -[native_connects native_listeners].
        rewrite native_connects_error, native_connects_loadedmetadata.
        rewrite native_listeners_S, (Hon v x Hx).
        by rewrite <- (assoc (++)).
      * rewrite !list_lookup_alter_ne in Hy by done.
        rewrite !native_connects_other by done.
        by apply Hon.
    + intros j Hj.
      destruct s as [e u v0 h p st er vol vs es cs];
        cbn -[native_connects] in *.
      rewrite !length_alter in Hj.
      apply lookup_lt_Some in Hx.
      rewrite !native_connects_other by lia. by apply Hfr.
  - apply (native_preserved s); [done|..]; destruct s; cbn;
      [done|same_videos|done].
Qed.

Lemma cleanup_render_native (e : option nat) (u : option string)
    (s : State) :
  native_only s ∧ native_fresh s →
  native_only (cleanup (render e u s)) ∧
  native_fresh (cleanup (render e u s)).
Proof.
  intros [Hon Hfr].
  assert (∀ v, native_connects v (calls (cleanup (render e u s)))
               = native_connects v (calls s)) as Hcalls.
  { intros v. unfold cleanup, render.
    by destruct s as [e0 u0 [v0|] [h|] p st er vol vs es cs], e. }
  assert (videos (cleanup (render e u s)) = videos s ∨
          videos (cleanup (render e u s)) = videos s ++ [Video.fresh])
    as [Hvs|Hvs].
  { unfold cleanup, render.
    destruct s as [e0 u0 [v0|] [h|] p st er vol vs es cs], e; cbn; auto. }
  - apply (native_preserved s); [done|by rewrite Hvs| |done].
    rewrite Hvs. same_videos.
  - split.
    + intros v x. rewrite Hvs, Hcalls.
      intros [Hx|[Hlen Hx]]%lookup_app_Some; [by apply Hon|].
      destruct (v - length (videos s)) as [|m] eqn:Hm; [|by destruct m].
      injection Hx as <-. by rewrite (Hfr v Hlen).
    + intros v. rewrite Hvs, Hcalls, length_app. cbn. intros Hv.
      apply Hfr. lia.
Qed.

Lemma step_native (a : Action) (s : State) :
  Inv s → native_only s ∧ native_fresh s → enabled a s = true →
  native_only (step b a s) ∧ native_fresh (step b a s).
Proof.
  intros HI HN Hen. destruct a as [e u| | | |x|h ev|v ev]; cbn [step].
  - unfold update. destruct (deps_changed e u s) eqn:Hd;
      [|by rewrite render_unchanged].
    destruct (cleanup_render_inv e u s HI) as (HI' & _).
    pose proof (cleanup_render_native e u s HN) as HN'.
    unfold effect.
    destruct (present (event (cleanup (render e u s)))
              && truthy (streamUrl (cleanup (render e u s)))); [|done].
    by apply connectStream_native_inv.
  - by apply connectStream_native_inv.
  - apply (native_preserved s); [done|..]; unfold disconnectStream;
      destruct s as [e u [v|] [h|] p st er vol vs es cs]; cbn;
      rewrite ?length_alter; try done; try same_videos.
    all: intros j x' Hx'; rewrite list_alter_alter_eq in Hx';
      by apply lookup_alter_listeners in Hx'.
  - apply (native_preserved s); [done|..]; unfold togglePlayPause;
      destruct (videoRef s) as [v|]; try done; try same_videos;
      destruct (video_paused v s), s; cbn; rewrite ?length_alter;
      try done.
    all: intros j x'; by apply lookup_alter_listeners.
  - pose proof (handleVolumeChange_fields x s) as
      (_ & _ & _ & _ & _ & _ & _ & _ & _ & Hcalls & Hvs).
    cbn zeta in *.
    apply (native_preserved s); [done|..]; rewrite ?Hvs, ?Hcalls.
    + destruct (videoRef s) as [v|]; [|done].
      destruct (videos s !! v) as [el|]; [|done].
      destruct (Video.set_volume x el); [apply length_insert|done].
    + destruct (videoRef s) as [v|]; [|same_videos].
      destruct (videos s !! v) as [el|] eqn:Hel; [|same_videos].
      destruct (Video.set_volume x el) as [el'|] eqn:Hset;
        [|same_videos].
      destruct (set_volume_Some x el el' Hset) as (_ & _ & _ & _ & Hls).
      intros j x'. destruct (decide (v = j)) as [<-|Hne].
      * rewrite list_lookup_insert_eq by (by eapply lookup_lt_Some).
        intros [= <-]. by exists el.
      * rewrite list_lookup_insert_ne by done. intros Hj. by exists x'.
    + intros v. by destruct (videoRef s).
  - unfold hls_emit. destruct (engines s !! h); [|done].
    destruct ev; by apply run_listeners_native.
  - unfold video_emit. destruct (videos s !! v); [|done].
    by apply run_listeners_native.
Qed.

Lemma reachable_native (s : State) :
  reachable b s → native_only s ∧ native_fresh s.
Proof.
  induction 1 as [e u|a s Hr IH Hen].
  - unfold mount.
    assert (native_only initial ∧ native_fresh initial) as HN0.
    { split; [by intros v x|by intros v]. }
    pose proof (cleanup_render_native e u initial HN0) as HN.
    destruct (cleanup_render_inv e u initial initial_inv) as (HI & _).
    assert (cleanup (render e u initial) = render e u initial) as Hc.
    { unfold cleanup, render. cbn. by destruct e. }
    rewrite Hc in *. unfold effect.
    destruct (present (event (render e u initial))
              && truthy (streamUrl (render e u initial))); [|done].
    by apply connectStream_native_inv.
  - apply step_native; [by apply (reachable_inv b)|done..].
Qed.

Lemma native_listeners_for_loadedmetadata (v k : nat) :
  listeners_for "loadedmetadata" (native_listeners v k)
  = replicate k (OnLoadedMetadata v).
Proof.
  induction k as [|k IH]; [done|].
  unfold native_listeners in *. rewrite replicate_S. cbn.
  f_equal. exact IH.
Qed.

Lemma native_listeners_for_error (v k : nat) :
  listeners_for "error" (native_listeners v k) = replicate k OnVideoError.
Proof.
  induction k as [|k IH]; [done|].
  unfold native_listeners in *. rewrite replicate_S. cbn.
  f_equal. exact IH.
Qed.

Lemma run_loadedmetadata_listeners (v k : nat) (s : State) :
  let s' := run_listeners None (replicate k (OnLoadedMetadata v)) s in
  calls s' = replicate k (VideoPlay v) ++ calls s ∧
  (0 < k → status s' = Connected ∧ isPlaying s' = true) ∧
  error s' = error s ∧ hlsRef s' = hlsRef s ∧ engines s' = engines s.
Proof.
  cbn zeta. revert s. induction k as [|k IH]; intros s.
  - cbn. repeat split; lia.
  - rewrite replicate_S.
    change (run_listeners None (OnLoadedMetadata v
                                :: replicate k (OnLoadedMetadata v)) s)
      with (run_listeners None (replicate k (OnLoadedMetadata v))
              (loadedmetadata_handler v s)).
    destruct (IH (loadedmetadata_handler v s))
      as (Hc & Hst & He & Hh & Hen).
    rewrite Hc, He, Hh, Hen.
    split; [|split].
    + rewrite replicate_S_end, <- (assoc (++)). by destruct s.
    + intros _. destruct k as [|k]; [by destruct s|]. apply Hst. lia.
    + by destruct s.
Qed.

Lemma run_error_listeners (k : nat) (s : State) :
  0 < k →
  run_listeners None (replicate k OnVideoError) s = video_error_handler s.
Proof.
  intros Hk. destruct k as [|k]; [lia|]. clear Hk. revert s.
  induction k as [|k IH]; intros s; [done|].
  rewrite replicate_S.
  change (run_listeners None (OnVideoError :: replicate (S k) OnVideoError) s)
    with (run_listeners None (replicate (S k) OnVideoError)
            (video_error_handler s)).
  rewrite IH. by destruct s.
Qed.

(** X17. With native playback every connect adds a loadedmetadata
    listener to the video element and nothing ever removes one, so a
    loadedmetadata event calls play() once for each connect made on
    that element so far, disconnects in between notwithstanding; if
    there was at least one, the state becomes connected and the
    playing flag is set.  The error descriptor is kept. *)
Theorem loadedmetadata_plays_per_connect (s : State) (v : nat) :
  reachable b s → is_Some (videos s !! v) →
  let k := native_connects v (calls s) in
  let s' := step b (VideoEmit v "loadedmetadata") s in
  calls s' = replicate k (VideoPlay v) ++ calls s ∧
  (0 < k → status s' = Connected ∧ isPlaying s' = true) ∧
  error s' = error s ∧ hlsRef s' = hlsRef s ∧ engines s' = engines s.
Proof.
  intros Hr [x Hx]. destruct (reachable_native s Hr) as [Hon _].
  cbn zeta. cbn [step]. unfold video_emit. rewrite Hx, (Hon v x Hx).
  rewrite native_listeners_for_loadedmetadata.
  apply run_loadedmetadata_listeners.
Qed.

(** X18. With native playback, an error event of the video element on
    which a connect was made puts the session in state error with the
    descriptor 'Failed to load stream' and does nothing else: no call
    is issued, nothing is retried or released, and the playing flag
    and the surface are left as they are. *)
Theorem native_error_event (s : State) (v : nat) :
  reachable b s → is_Some (videos s !! v) →
  0 < native_connects v (calls s) →
  let s' := step b (VideoEmit v "error") s in
  status s' = Error ∧ error s' = Some "Failed to load stream" ∧
  calls s' = calls s ∧ isPlaying s' = isPlaying s ∧
  videos s' = videos s ∧ hlsRef s' = hlsRef s ∧ engines s' = engines s.
Proof.
  intros Hr [x Hx] Hk. destruct (reachable_native s Hr) as [Hon _].
  cbn zeta. cbn [step]. unfold video_emit. rewrite Hx, (Hon v x Hx).
  rewrite native_listeners_for_error, run_error_listeners by done.
  by destruct s.
Qed.

(** *** Disconnect, then connect *)

(** X19. After the Disconnect button the Connect button is offered,
    and in a browser that supports hls.js, for an event that has a
    stream URL, pressing it starts the stream anew: the surface was
    paused and its source cleared, the old instance is released, and
    one new instance is created, loaded with the stream URL of the
    props, attached to the same surface and stored in the engine
    reference; every other instance is destroyed or was never given a
    source.  The state is connecting, the error is cleared and the
    playing flag is off. *)
Theorem manual_reconnect (s : State) (url : string) :
  reachable b s → enabled ClickDisconnect s = true →
  isSupported b = true → streamUrl s = Some url →
  let s1 := step b ClickDisconnect s in
  let s2 := step b ClickConnect s1 in
  let n := length (engines s) in
  enabled ClickConnect s1 = true ∧
  status s2 = Connecting ∧ error s2 = None ∧ isPlaying s2 = false ∧
  hlsRef s2 = Some n ∧
  (∀ h, hlsRef s = Some h → released h s2) ∧
  ∃ v, videoRef s = Some v ∧
       engines s2 !! n
       = Some {| Hls.destroyed := false;
                 Hls.source := Some url;
                 Hls.media := Some v; Hls.listeners := wiring n v |} ∧
       (∀ k inst, engines s2 !! k = Some inst → k ≠ n →
          Hls.destroyed inst = true ∨ Hls.source inst = None) ∧
       (Video.paused <$> videos s2 !! v) = Some true ∧
       (Video.src <$> videos s2 !! v) = Some "".
Proof.
  intros HI%reachable_inv Hen Hsup Hurl. cbn zeta. cbn [step].
  cbn in Hen. apply andb_true_iff in Hen as [Hev _].
  pose proof (inv_surface s HI) as Hsurf. rewrite Hev in Hsurf.
  destruct (videoRef s) as [v|] eqn:Hv; [|discriminate].
  destruct (inv_surface_valid s HI v Hv) as [x Hx].
  pose proof (disconnectStream_fields s) as
    (Hst & Hp & He & Href & Hv' & Hev' & Hu & _).
  pose proof (disconnectStream_no_stream s HI) as Hno.
  cbn zeta in *. rewrite Hv in Hv'. rewrite Hurl in Hu.
  assert (length (engines (disconnectStream s)) = length (engines s))
    as Hlen.
  { rewrite disconnectStream_engines. destruct (hlsRef s); [|done].
    apply length_alter. }
  assert (videos (disconnectStream s) !! v
          = Some (Video.set_src "" (Video.pause x))) as Hvid.
  { unfold disconnectStream.
    destruct s as [e u v0 [h|] p st er vol vs es cs]; cbn in *;
      subst v0; cbn; by rewrite !list_lookup_alter_eq, Hx. }
  split. { cbn. by rewrite Hev', Hev, Hst. }
  rewrite (connectStream_supported b _ v url Hv' Hsup Hu).
  rewrite Hlen.
  cbn [status error isPlaying hlsRef videoRef engines calls videos].
  split; [done|]. split; [done|]. split; [done|]. split; [done|].
  split.
  { intros h Hh.
    destruct (released_after_destroy s (disconnectStream s) h HI Hh)
      as (inst & Hl & Hd).
    { by rewrite disconnectStream_engines, Hh. }
    exists inst. split; [|done]. cbn. by apply lookup_app_l_Some. }
  exists v. split; [done|]. split; [|split; [|split]].
  - rewrite lookup_app_r by lia. by rewrite Hlen, Nat.sub_diag.
  - intros k inst [Hl|[Hk Hl]]%lookup_app_Some Hne.
    + destruct (Hls.destroyed inst) eqn:Hdes; [by left|right].
      by apply (Hno k inst).
    + rewrite Hlen in Hk, Hl.
      destruct (k - length (engines s)) as [|m] eqn:Hm;
        [lia|by destruct m].
  - by rewrite Hvid.
  - by rewrite Hvid.
Qed.

End PlayerMore.

(* ================================================================== *)
(** ** More concrete runs *)
(* ================================================================== *)

Section MoreRuns.
Import StreamPlayer Examples.

Lemma stalled_reachable : reachable chrome stalled.
Proof. apply reachable_step; [apply playing_reachable|reflexivity]. Qed.

Lemma native_again_reachable : reachable safari native_again.
Proof.
  apply reachable_step; [|reflexivity].
  apply reachable_step; [apply selected_reachable|reflexivity].
Qed.


(** Two fetches overlap, say the timer's and the Refresh button's:
    the second one fails, then the first one succeeds.  The list is
    the one of the response and the error of the failed fetch stays
    set. *)
Example overlapping_fetches_keep_error :
  EventList.run_phases
    [EventList.Start; EventList.Start; EventList.Settle offline;
     EventList.Settle one_event_response] EventList.initial
  = {| EventList.events := [aapl]; EventList.loading := false;
       EventList.error := Some "Failed to fetch" |}.
Proof. reflexivity. Qed.

Lemma run_phases_last_error_witness :
  Forall (λ p, p ≠ EventList.Start)
    [EventList.Settle offline; EventList.Settle one_event_response] ∧
  EventList.error
    (EventList.run_phases
       ([EventList.Start]
        ++ EventList.Start
        :: [EventList.Settle offline;
            EventList.Settle one_event_response]) EventList.initial)
  = Some "Failed to fetch" ∧
  EventList.events
    (EventList.run_phases
       ([EventList.Start]
        ++ EventList.Start
        :: [EventList.Settle offline;
            EventList.Settle one_event_response]) EventList.initial)
  = [aapl].
Proof.
  assert (Forall (λ p, p ≠ EventList.Start)
            [EventList.Settle offline;
             EventList.Settle one_event_response]) as Hafter.
  { repeat constructor; discriminate. }
  split; [exact Hafter|].
  destruct (run_phases_last_error [EventList.Start]
              [EventList.Settle offline;
               EventList.Settle one_event_response]
              EventList.initial Hafter) as (Herr & _ & Hev).
  split; [exact Herr|exact Hev].
Defined.

Lemma failed_refresh_keeps_cards_witness :
  EventList.failed offline = true ∧
  EventList.events one_event ≠ [] ∧
  EventList.render (Some aapl) (EventList.fetchEvents offline one_event)
  = EventList.Listing "1 event" false "Refresh"
      [EventList.card (Some aapl) 0 aapl].
Proof.
  split; [reflexivity|]. split; [discriminate|].
  apply (failed_refresh_keeps_cards (Some aapl) offline one_event);
    [reflexivity|discriminate].
Defined.

Lemma failed_first_fetch_view_witness :
  EventList.events EventList.initial = [] ∧
  EventList.try_block offline
  = inl {| EventList.message := "Failed to fetch" |} ∧
  EventList.render None (EventList.fetchEvents offline EventList.initial)
  = EventList.ErrorPage "Failed to load events: Failed to fetch".
Proof.
  split; [reflexivity|]. split; [reflexivity|].
  apply (failed_first_fetch_view None offline EventList.initial
           {| EventList.message := "Failed to fetch" |});
    reflexivity.
Defined.

Lemma cards_follow_events_witness :
  [aapl; aapl_q1] !! 1 = Some aapl_q1 ∧
  (EventList.selected
     <$> imap (EventList.card (Some aapl_q1)) [aapl; aapl_q1] !! 1)
  = Some true ∧
  EventList.selected (EventList.card None 0 unnamed) = true ∧
  EventList.selected (EventList.card None 1 aapl) = false.
Proof.
  split; [reflexivity|]. split.
  - apply (proj1 (proj2 (cards_follow_events [aapl; aapl_q1])) 1 aapl_q1).
    reflexivity.
  - pose proof (proj2 (proj2 (proj2 (cards_follow_events [unnamed; aapl]))))
      as Hnone.
    split; [|reflexivity].
    apply (Forall_lookup_1 _ _ 0 (EventList.card None 0 unnamed)) in Hnone;
      [|reflexivity].
    apply Hnone. split; reflexivity.
Defined.

Lemma status_colours_distinct_witness :
  getStatusColor Error = getStatusColor Error ∧ Error = Error.
Proof.
  split; [reflexivity|].
  apply (status_colours_distinct Error Error). reflexivity.
Defined.

Lemma session_coherent_witness :
  reachable chrome crashed ∧ status crashed = Error ∧
  is_Some (error crashed).
Proof.
  split; [apply crashed_reachable|]. split; [reflexivity|].
  apply (proj2 (proj2 (session_coherent chrome crashed crashed_reachable))).
  reflexivity.
Defined.

Lemma nonfatal_error_ignored_witness :
  reachable chrome playing ∧
  enabled (HlsEmit 0 (EngineError hiccup)) playing = true ∧
  fatal hiccup = false ∧
  same_session (step chrome (HlsEmit 0 (EngineError hiccup)) playing)
    playing ∧
  calls (step chrome (HlsEmit 0 (EngineError hiccup)) playing)
  = ConsoleError "HLS error:" :: calls playing.
Proof.
  split; [apply playing_reachable|]. split; [reflexivity|].
  split; [reflexivity|].
  apply (nonfatal_error_ignored chrome playing 0 hiccup);
    [apply playing_reachable|reflexivity|reflexivity].
Defined.

Lemma error_event_leaves_surface_witness :
  reachable chrome playing ∧
  enabled (HlsEmit 0 (EngineError other_error)) playing = true ∧
  videos (step chrome (HlsEmit 0 (EngineError other_error)) playing)
  = videos playing ∧
  video_calls
    (calls (step chrome (HlsEmit 0 (EngineError other_error)) playing))
  = video_calls (calls playing).
Proof.
  split; [apply playing_reachable|]. split; [reflexivity|].
  destruct (error_event_leaves_surface chrome playing 0 other_error)
    as (Hvs & _ & Hcalls & _).
  - apply playing_reachable.
  - reflexivity.
  - split; [exact Hvs|exact Hcalls].
Defined.

Lemma manifest_parsed_keeps_error_witness :
  reachable chrome stalled ∧
  enabled (HlsEmit 0 ManifestParsed) stalled = true ∧
  status (step chrome (HlsEmit 0 ManifestParsed) stalled) = Connected ∧
  error (step chrome (HlsEmit 0 ManifestParsed) stalled)
  = Some "networkError: manifestLoadError".
Proof.
  split; [apply stalled_reachable|]. split; [reflexivity|].
  destruct (manifest_parsed_keeps_error chrome stalled 0)
    as (Hst & Her & _).
  - apply stalled_reachable.
  - reflexivity.
  - split; [exact Hst|]. rewrite Her. reflexivity.
Defined.

Lemma rerender_same_props_noop_witness :
  reachable chrome playing ∧
  step chrome (SetProps (event playing) (streamUrl playing)) playing
  = playing.
Proof.
  split; [apply playing_reachable|].
  apply (rerender_same_props_noop chrome playing playing_reachable).
Defined.

Lemma switch_event_reconnects_witness :
  reachable chrome playing ∧
  deps_changed (Some 1) (Some "https://x/q1.m3u8") playing = true ∧
  truthy (Some "https://x/q1.m3u8") = true ∧
  isSupported chrome = true ∧
  status (step chrome (SetProps (Some 1) (Some "https://x/q1.m3u8"))
            playing) = Connecting ∧
  isPlaying (step chrome (SetProps (Some 1) (Some "https://x/q1.m3u8"))
               playing) = isPlaying playing ∧
  hlsRef (step chrome (SetProps (Some 1) (Some "https://x/q1.m3u8"))
            playing) = Some 1.
Proof.
  split; [apply playing_reachable|]. split; [reflexivity|].
  split; [reflexivity|]. split; [reflexivity|].
  destruct (switch_event_reconnects chrome playing 1
              (Some "https://x/q1.m3u8"))
    as (Hst & _ & Hp & Href & _).
  - apply playing_reachable.
  - reflexivity.
  - reflexivity.
  - reflexivity.
  - split; [exact Hst|]. split; [exact Hp|exact Href].
Defined.

Lemma toggle_follows_surface_witness :
  videoRef playing = Some 0 ∧
  videos playing !! 0
  = Some {| Video.paused := false; Video.src := ""; Video.volume := 1;
            Video.listeners := [] |} ∧
  isPlaying (togglePlayPause playing) = false ∧
  calls (togglePlayPause playing) = VideoPause 0 :: calls playing.
Proof.
  split; [reflexivity|]. split; [reflexivity|].
  destruct (toggle_follows_surface playing 0
              {| Video.paused := false; Video.src := "";
                 Video.volume := 1; Video.listeners := [] |})
    as (Hp & _ & Hcalls & _).
  - reflexivity.
  - reflexivity.
  - split; [exact Hp|exact Hcalls].
Defined.

Lemma toggle_twice_witness :
  videoRef playing = Some 0 ∧
  videos playing !! 0
  = Some {| Video.paused := false; Video.src := ""; Video.volume := 1;
            Video.listeners := [] |} ∧
  videos (togglePlayPause (togglePlayPause playing)) = videos playing ∧
  isPlaying (togglePlayPause (togglePlayPause playing)) = true.
Proof.
  split; [reflexivity|]. split; [reflexivity|].
  destruct (toggle_twice playing 0
              {| Video.paused := false; Video.src := "";
                 Video.volume := 1; Video.listeners := [] |})
    as (Hvs & Hp & _).
  - reflexivity.
  - reflexivity.
  - split; [exact Hvs|exact Hp].
Defined.

Lemma loadedmetadata_plays_per_connect_witness :
  reachable safari native_again ∧
  is_Some (videos native_again !! 0) ∧
  native_connects 0 (calls native_again) = 2 ∧
  calls (step safari (VideoEmit 0 "loadedmetadata") native_again)
  = [VideoPlay 0; VideoPlay 0] ++ calls native_again.
Proof.
  split; [apply native_again_reachable|].
  split; [eexists; reflexivity|]. split; [reflexivity|].
  apply (loadedmetadata_plays_per_connect safari native_again 0).
  - apply native_again_reachable.
  - eexists. reflexivity.
Defined.

Lemma native_error_event_witness :
  reachable safari (selected safari) ∧
  is_Some (videos (selected safari) !! 0) ∧
  0 < native_connects 0 (calls (selected safari)) ∧
  status (step safari (VideoEmit 0 "error") (selected safari)) = Error ∧
  error (step safari (VideoEmit 0 "error") (selected safari))
  = Some "Failed to load stream".
Proof.
  split; [apply selected_reachable|].
  split; [eexists; reflexivity|]. split; [exact (Nat.lt_0_succ 0)|].
  destruct (native_error_event safari (selected safari) 0)
    as (Hst & Her & _).
  - apply selected_reachable.
  - eexists. reflexivity.
  - exact (Nat.lt_0_succ 0).
  - split; [exact Hst|exact Her].
Defined.

Lemma manual_reconnect_witness :
  reachable chrome (selected chrome) ∧
  enabled ClickDisconnect (selected chrome) = true ∧
  isSupported chrome = true ∧
  streamUrl (selected chrome) = Some "https://x/playlist.m3u8" ∧
  status reconnected = Connecting ∧ isPlaying reconnected = false ∧
  hlsRef reconnected = Some 1 ∧ released 0 reconnected.
Proof.
  split; [apply selected_reachable|]. split; [reflexivity|].
  split; [reflexivity|]. split; [reflexivity|].
  destruct (manual_reconnect chrome (selected chrome)
              "https://x/playlist.m3u8")
    as (_ & Hst & _ & Hp & Href & Hrel & _).
  - apply selected_reachable.
  - reflexivity.
  - reflexivity.
  - reflexivity.
  - split; [exact Hst|]. split; [exact Hp|].
    split; [exact Href|exact (Hrel 0 eq_refl)].
Defined.

End MoreRuns.
